(** * The metadata controller of the cluster agent

    A shallow embedding of [pkg/util/kubernetes/apiserver]'s metadata
    controller: the event handlers feeding the work queue, the worker step
    [processNextWorkItem], the reconciler ([reconcileKey], [mapService],
    [mapDeletedService]) and the read path [GetPodMetadataNames].

    Go maps are finite maps ([gmap]), string sets are [gset string], the
    process-wide cache and the bundles it points to are an explicit store and
    heap, and every function that touches them is a computation in a small
    state monad over [World]. *)

From Stdlib Require Import Ascii.
From stdpp Require Import gmap strings list fin_maps.

Local Open Scope string_scope.

#[local] Set Warnings "-clear-no-such-hyp".

(** ** Kubernetes API objects (the fields the controller reads) *)

(** [corev1.ObjectReference] *)
Record ObjectReference := mkObjectReference {
  ref_Kind : string;
  ref_Namespace : string;
  ref_Name : string
}.

(** [corev1.EndpointAddress]; [TargetRef] and [NodeName] are pointers in Go,
    [None] is the nil pointer. *)
Record EndpointAddress := mkEndpointAddress {
  TargetRef : option ObjectReference;
  NodeName : option string
}.

(** [corev1.EndpointSubset] *)
Record EndpointSubset := mkEndpointSubset {
  Addresses : list EndpointAddress
}.

(** [corev1.Endpoints] with the two [ObjectMeta] fields in use. *)
Record Endpoints := mkEndpoints {
  Namespace : string;
  Name : string;
  Subsets : list EndpointSubset
}.

(** [corev1.Node] *)
Record Node := mkNode {
  node_Name : string
}.

(** What an informer hands to an event handler as [interface{}]: an
    [*corev1.Endpoints], a [cache.DeletedFinalStateUnknown] tombstone (a key
    and the last known object), or a value of some other dynamic type. *)
Inductive Object :=
| ObjEndpoints (e : Endpoints)
| DeletedFinalStateUnknown (Key : string) (Obj : Object)
| ObjOther (descr : string).

(** Go's [error]; [errors.IsNotFound] recognises the API status error with
    reason NotFound. *)
Inductive error :=
| StatusNotFound (msg : string)
| ErrorString (msg : string).

Definition IsNotFound (err : option error) : bool :=
  match err with
  | Some (StatusNotFound _) => true
  | _ => false
  end.

(** ** Services mapper *)

(** [ServicesMapper] is [map[string]map[string]sets.String]:
    namespace -> pod name -> set of service names. *)
Abbreviation ServicesMapper := (gmap string (gmap string (gset string))).

Module ServicesMapper.

(** Modelled from the spec: the body of [ServicesMapper.Set] is not
    available. "add the endpoint object's own name to that pod's service-name set
    (merge, not replace)"; the namespace and pod entries are created on
    first use. *)
Definition Set_ (m : ServicesMapper) (namespace podName svc : string)
  : ServicesMapper :=
  let pods := default ∅ (m !! namespace) in
  let svcs := default ∅ (pods !! podName) in
  <[namespace := <[podName := svcs ∪ {[svc]}]> pods]> m.

(** Modelled from the spec: the body of [ServicesMapper.Delete] is not
    available. "remove [name] from every pod's service set under
    [namespace], prune empty entries": a pod entry whose set becomes empty
    is removed. *)
Definition Delete (m : ServicesMapper) (namespace svc : string)
  : ServicesMapper :=
  match m !! namespace with
  | None => m
  | Some pods =>
      <[namespace :=
          filter (λ kv, kv.2 ≠ ∅) ((λ svcs, svcs ∖ {[svc]}) <$> pods)]> m
  end.

(** Modelled from the spec: the body of [ServicesMapper.Get] is not
    available. "looks up namespace -> podName in its Services Mapper; returns the
    resulting service-name set and found=true, or found=false if the pod
    is unknown". The slice lists the set's elements. *)
Definition Get (m : ServicesMapper) (ns podName : string)
  : list string * bool :=
  match m !! ns ≫= (.!! podName) with
  | Some svcs => (elements svcs, true)
  | None => ([], false)
  end.

(** The set of services recorded for a pod, empty when there is no entry. *)
Definition of_pod (m : ServicesMapper) (ns podName : string) : gset string :=
  default ∅ (m !! ns ≫= (.!! podName)).

End ServicesMapper.

(** Modelled from the spec: the declaration of [MetadataMapperBundle] is not
    available. "Bundle: one per node; wraps a Services Mapper plus a
    mutual-exclusion guard." The guard [m] carries no data in a sequential
    run; taking and releasing it is recorded in the event trace. *)
Record MetadataMapperBundle := mkBundle {
  Services : ServicesMapper
}.

(** ** The world: cache store, heap of bundles, work queue, trace *)

Abbreviation loc := nat.

(** What the cache holds under a key: a [*MetadataMapperBundle] or a value of
    another dynamic type. *)
Inductive cached :=
| PtrBundle (l : loc)
| NotABundle (descr : string).

Inductive level := Trace | Debug | Info.

Inductive event :=
| EvLog (lvl : level) (format : string)
| EvLock (l : loc)
| EvUnlock (l : loc)
| EvRLock (l : loc)
| EvRUnlock (l : loc).

(** The rate limiting work queue of client-go: FIFO [q_items], the [dirty]
    and [processing] sets of the base queue, the keys parked by [AddAfter]
    until their delay elapses, the per-key failure counter of the
    exponential rate limiter, and the shutdown flag. *)
Record WorkQueue := mkQueue {
  q_items : list string;
  q_dirty : gset string;
  q_processing : gset string;
  q_waiting : gset string;
  q_failures : gmap string nat;
  q_shuttingDown : bool
}.

Record World := mkWorld {
  store : gmap string (cached * Z);
  heap : gmap nat MetadataMapperBundle;
  next_loc : nat;
  queue : WorkQueue;
  trace : list event
}.

Definition emptyQueue : WorkQueue := mkQueue [] ∅ ∅ ∅ ∅ false.
Definition emptyWorld : World := mkWorld ∅ ∅ 0 emptyQueue [].

(** ** State monad *)

Definition M (A : Type) : Type := World → A * World.

#[global] Instance M_ret : MRet M := λ A a w, (a, w).
#[global] Instance M_bind : MBind M :=
  λ A B f c w, let '(a, w') := c w in f a w'.

Definition exec {A} (c : M A) (w : World) : World := (c w).2.
Definition eval {A} (c : M A) (w : World) : A := (c w).1.

Definition modify (f : World → World) : M unit := λ w, (tt, f w).
Definition gets {A} (f : World → A) : M A := λ w, (f w, w).

Definition set_store (f : gmap string (cached * Z) → gmap string (cached * Z))
    (w : World) : World :=
  mkWorld (f (store w)) (heap w) (next_loc w) (queue w) (trace w).
Definition set_heap (f : gmap nat MetadataMapperBundle → gmap nat MetadataMapperBundle)
    (w : World) : World :=
  mkWorld (store w) (f (heap w)) (next_loc w) (queue w) (trace w).
Definition set_queue (f : WorkQueue → WorkQueue) (w : World) : World :=
  mkWorld (store w) (heap w) (next_loc w) (f (queue w)) (trace w).
Definition emit (e : event) : M unit :=
  modify (λ w, mkWorld (store w) (heap w) (next_loc w) (queue w) (trace w ++ [e])).

(** [for _, x := range xs { body }] *)
Fixpoint forM_ {A} (xs : list A) (body : A → M unit) : M unit :=
  match xs with
  | [] => mret tt
  | x :: rest => body x ;; forM_ rest body
  end.

Module log.
Definition Tracef (format : string) : M unit := emit (EvLog Trace format).
Definition Debugf (format : string) : M unit := emit (EvLog Debug format).
Definition Infof (format : string) : M unit := emit (EvLog Info format).
End log.

(** ** Work queue *)

(** client-go's rate limiting work queue, after its contract: [Add] is
    idempotent while a key is pending and defers a key that is being
    processed; [Get] hands out the head and marks it processing; [Done]
    re-queues a key that was added again meanwhile; [AddRateLimited] counts
    a failure and parks the key until its backoff delay is over; [Forget]
    clears the failure counter; [NumRequeues] reads it. *)
Module workqueue.

Definition Add (item : string) (q : WorkQueue) : WorkQueue :=
  if q_shuttingDown q then q
  else if decide (item ∈ q_dirty q) then q
  else if decide (item ∈ q_processing q) then
    mkQueue (q_items q) ({[item]} ∪ q_dirty q) (q_processing q)
            (q_waiting q) (q_failures q) (q_shuttingDown q)
  else
    mkQueue (q_items q ++ [item]) ({[item]} ∪ q_dirty q) (q_processing q)
            (q_waiting q) (q_failures q) (q_shuttingDown q).

(** [Get] blocks on an empty queue until a key arrives or the queue shuts
    down; [None] stands for the blocked call. *)
Definition Get (q : WorkQueue) : option (string * bool) * WorkQueue :=
  match q_items q with
  | [] => (if q_shuttingDown q then Some ("", true) else None, q)
  | item :: rest =>
      (Some (item, false),
       mkQueue rest (q_dirty q ∖ {[item]}) ({[item]} ∪ q_processing q)
               (q_waiting q) (q_failures q) (q_shuttingDown q))
  end.

Definition Done (item : string) (q : WorkQueue) : WorkQueue :=
  mkQueue (if decide (item ∈ q_dirty q) then q_items q ++ [item] else q_items q)
          (q_dirty q) (q_processing q ∖ {[item]})
          (q_waiting q) (q_failures q) (q_shuttingDown q).

Definition Forget (item : string) (q : WorkQueue) : WorkQueue :=
  mkQueue (q_items q) (q_dirty q) (q_processing q)
          (q_waiting q) (delete item (q_failures q)) (q_shuttingDown q).

Definition NumRequeues (item : string) (q : WorkQueue) : nat :=
  default 0 (q_failures q !! item).

(** The rate limiter's [When] counts the failure before [AddAfter] looks at
    the shutdown flag. *)
Definition AddRateLimited (item : string) (q : WorkQueue) : WorkQueue :=
  mkQueue (q_items q) (q_dirty q) (q_processing q)
          (if q_shuttingDown q then q_waiting q else {[item]} ∪ q_waiting q)
          (<[item := S (NumRequeues item q)]> (q_failures q))
          (q_shuttingDown q).

(** The delay of a parked key is over: the queue's timer adds it. *)
Definition ready (item : string) (q : WorkQueue) : WorkQueue :=
  if decide (item ∈ q_waiting q) then
    Add item (mkQueue (q_items q) (q_dirty q) (q_processing q)
                      (q_waiting q ∖ {[item]}) (q_failures q) (q_shuttingDown q))
  else q.

(** [ShutDown]: the queue takes no new key from then on; [Get] still hands
    out the keys it holds. *)
Definition ShutDown (q : WorkQueue) : WorkQueue :=
  mkQueue (q_items q) (q_dirty q) (q_processing q)
          (q_waiting q) (q_failures q) true.

End workqueue.

(** ** The controller *)

(** The controller's listers: what the node lister's [List] and the
    endpoints lister's [Endpoints(namespace).Get(name)] answer from the
    informers' stores. The controller's [queue] is part of the world. *)
Record MetadataController := mkController {
  nodeLister : list Node + error;
  endpointsLister : string → string → Endpoints + error
}.

(** ** The agent cache and the bundles it holds *)

Section Controller.

(** Two package constants declared elsewhere in the package: the prefix of
    the cache keys and the time to live of a cached bundle. *)
Variable metadataMapperCachePrefix : string.
Variable metadataMapExpire : Z.

(** Modelled from the spec: the body of [utilcache.BuildAgentKey] is not
    available. "Cache key format: <fixed prefix>/<node name>". *)
Definition BuildAgentKey (prefix nodeName : string) : string :=
  prefix ++ "/" ++ nodeName.

(** Modelled from the spec: the cache store's code is not available.
    "set(key, bundle, ttl), get(key) -> (bundle, found)". The time to live
    given at the last [Set] is kept with the object; the passing of time is
    outside the model, so an entry stays until it is overwritten. *)
Definition Cache_Get (key : string) : M (option cached) :=
  gets (λ w, fst <$> store w !! key).

(** Modelled from the spec: "write the Bundle back into the cache with a
    refreshed TTL". *)
Definition Cache_Set (key : string) (obj : cached) (ttl : Z) : M unit :=
  modify (set_store <[key := (obj, ttl)]>).

(** Modelled from the spec: the body of [newMetadataMapperBundle] is not
    available. A bundle is "created lazily on first write": a freshly
    allocated bundle with an empty services mapper. *)
Definition newMetadataMapperBundle : M loc :=
  λ w, let l := next_loc w in
       (l, mkWorld (store w) (<[l := mkBundle ∅]> (heap w)) (S l)
                   (queue w) (trace w)).

(** The bundle a pointer refers to. *)
Definition deref (w : World) (l : loc) : MetadataMapperBundle :=
  default (mkBundle ∅) (heap w !! l).

(** Modelled from the spec: the body of [getMetadataMapBundle] is not
    available. It looks the node's bundle up in the cache ("fetch-or-create", "skip
    nodes with no existing bundle") and fails when the cache holds no bundle
    under the node's key. *)
Definition getMetadataMapBundle (nodeName : string) : M (loc + error) :=
  let cacheKey := BuildAgentKey metadataMapperCachePrefix nodeName in
  v ← Cache_Get cacheKey;
  match v with
  | Some (PtrBundle l) => mret (inl l)
  | _ => mret (inr (ErrorString ("the key " ++ cacheKey ++ " was not found in the cache")))
  end.

(** [metaBundle.Services.Set(namespace, podName, svc)] through the pointer. *)
Definition Services_Set (l : loc) (namespace podName svc : string) : M unit :=
  modify (λ w, set_heap
    <[l := mkBundle (ServicesMapper.Set_ (Services (deref w l)) namespace podName svc)]> w).

(** [metaBundle.Services.Delete(namespace, svc)] through the pointer. *)
Definition Services_Delete (l : loc) (namespace svc : string) : M unit :=
  modify (λ w, set_heap
    <[l := mkBundle (ServicesMapper.Delete (Services (deref w l)) namespace svc)]> w).

(** Modelled from the spec: the body of
    [MetadataMapperBundle.ServicesForPod] is not available. The read path
    "only ever locks the specific Bundle it reads, for the duration of a
    single lookup". *)
Definition ServicesForPod (l : loc) (ns podName : string) : M (list string * bool) :=
  emit (EvRLock l) ;;
  r ← gets (λ w, ServicesMapper.Get (Services (deref w l)) ns podName);
  emit (EvRUnlock l) ;;
  mret r.

(** ** Reconciler: [mapService] *)

(** One iteration of the inner loop of [mapService] over an address. *)
Definition nodeToPods_step (nodeToPods : gmap string (gmap string string))
    (address : EndpointAddress) : gmap string (gmap string string) :=
  match TargetRef address with
  | None => nodeToPods
  | Some ref =>
      if negb (String.eqb (ref_Kind ref) "Pod") then nodeToPods else
      let namespace := ref_Namespace ref in
      let podName := ref_Name ref in
      if String.eqb podName "" || String.eqb namespace "" then nodeToPods else
      match NodeName address with
      | None => nodeToPods
      | Some nodeName =>
          let nodeToPods :=
            match nodeToPods !! nodeName with
            | Some _ => nodeToPods
            | None => <[nodeName := ∅]> nodeToPods
            end in
          <[nodeName := <[namespace := podName]> (default ∅ (nodeToPods !! nodeName))]>
            nodeToPods
      end
  end.

(** The two nested loops over subsets and addresses. *)
Definition build_nodeToPods (endpoints : Endpoints) : gmap string (gmap string string) :=
  foldl (λ acc subset, foldl nodeToPods_step acc (Addresses subset))
        ∅ (Subsets endpoints).

(** The body of the second loop, for one node of the transient map. Go
    visits the entries of a map in an unspecified order; [map_to_list] fixes
    one. *)
Definition mapService_node (svc : string) (entry : string * gmap string string) : M unit :=
  let '(nodeName, pods) := entry in
  r ← getMetadataMapBundle nodeName;
  metaBundle ← match r with
               | inl l => mret l
               | inr _ =>
                   log.Tracef "Could not get metadata for node %s" ;;
                   newMetadataMapperBundle
               end;
  emit (EvLock metaBundle) ;;
  forM_ (map_to_list pods)
        (λ '(namespace, podName), Services_Set metaBundle namespace podName svc) ;;
  emit (EvUnlock metaBundle) ;;
  let cacheKey := BuildAgentKey metadataMapperCachePrefix nodeName in
  Cache_Set cacheKey (PtrBundle metaBundle) metadataMapExpire.

Definition mapService (endpoints : Endpoints) : M (option error) :=
  let nodeToPods := build_nodeToPods endpoints in
  let svc := Name endpoints in
  forM_ (map_to_list nodeToPods) (mapService_node svc) ;;
  mret None.

(** ** Reconciler: [mapDeletedService] *)

(** The loop over the listed nodes; [return nil] inside the loop ends the
    whole function. *)
Fixpoint mapDeletedService_nodes (namespace svc : string) (nodes : list Node)
    : M (option error) :=
  match nodes with
  | [] => mret None
  | node :: rest =>
      r ← getMetadataMapBundle (node_Name node);
      match r with
      | inr _ =>
          (* Nothing to delete. *)
          mret None
      | inl metaBundle =>
          emit (EvLock metaBundle) ;;
          Services_Delete metaBundle namespace svc ;;
          emit (EvUnlock metaBundle) ;;
          let cacheKey := BuildAgentKey metadataMapperCachePrefix (node_Name node) in
          Cache_Set cacheKey (PtrBundle metaBundle) metadataMapExpire ;;
          mapDeletedService_nodes namespace svc rest
      end
  end.

Variable m : MetadataController.

Definition mapDeletedService (namespace svc : string) : M (option error) :=
  match nodeLister m with
  | inr err => mret (Some err)
  | inl nodes => mapDeletedService_nodes namespace svc nodes
  end.

(** ** Reconciler: [reconcileKey] *)

(** [strings.Split(key, "/")] *)
Fixpoint split_slash (key : string) : list string :=
  match key with
  | EmptyString => [EmptyString]
  | String c rest =>
      if Ascii.eqb c "/"%char then EmptyString :: split_slash rest
      else match split_slash rest with
           | part :: parts => String c part :: parts
           | [] => [String c EmptyString]
           end
  end.

(** client-go's [cache.SplitMetaNamespaceKey]: one part is a name without
    namespace, two parts are namespace and name, anything else is an error. *)
Definition SplitMetaNamespaceKey (key : string) : string * string * option error :=
  match split_slash key with
  | [name] => ("", name, None)
  | [namespace; name] => (namespace, name, None)
  | _ => ("", "", Some (ErrorString ("unexpected key format: " ++ key)))
  end.

Definition reconcileKey (key : string) : M (option error) :=
  let '(namespace, name, err) := SplitMetaNamespaceKey key in
  match err with
  | Some _ => mret err
  | None =>
      let r := endpointsLister m namespace name in
      let err := match r with inl _ => None | inr e => Some e end in
      if IsNotFound err then
        log.Tracef "Endpoints has been deleted %v. Attempting to cleanup metadata map" ;;
        mapDeletedService namespace name
      else
        match r with
        | inr _ =>
            log.Debugf "Unable to retrieve endpoints %v from store: %v" ;;
            mret err
        | inl endpoints => mapService endpoints
        end
  end.

(** The controller's queue [m.queue], in the world. *)
Definition queue_Add (item : string) : M unit :=
  modify (set_queue (workqueue.Add item)).

Definition queue_Get : M (option (string * bool)) :=
  λ w, let '(got, q) := workqueue.Get (queue w) in (got, set_queue (λ _, q) w).

Definition queue_Done (item : string) : M unit :=
  modify (set_queue (workqueue.Done item)).

Definition queue_Forget (item : string) : M unit :=
  modify (set_queue (workqueue.Forget item)).

Definition queue_NumRequeues (item : string) : M nat :=
  gets (λ w, workqueue.NumRequeues item (queue w)).

Definition queue_AddRateLimited (item : string) : M unit :=
  modify (set_queue (workqueue.AddRateLimited item)).

Definition queue_ready (item : string) : M unit :=
  modify (set_queue (workqueue.ready item)).

Definition queue_ShutDown : M unit :=
  modify (set_queue workqueue.ShutDown).

(** ** Worker step *)

Definition maxRetries : nat := 15.
Definition numWorkers : nat := 2.

(** [None]: the worker is blocked in [Get]. The deferred [Done] runs on
    every return past the [defer]. *)
Definition processNextWorkItem : M (option bool) :=
  queue_Get ≫= λ got : option (string * bool),
  match got with
  | None => mret None
  | Some (key, quit) =>
      if quit then mret (Some false) else
      err ← reconcileKey key;
      match err with
      | None =>
          queue_Forget key ;;
          queue_Done key ;;
          mret (Some true)
      | Some _ =>
          n ← queue_NumRequeues key;
          if decide (n < maxRetries) then
            log.Debugf "Error syncing endpoints %v: %v" ;;
            queue_AddRateLimited key ;;
            queue_Done key ;;
            mret (Some true)
          else
            log.Debugf "Dropping endpoints %q out of the queue: %v" ;;
            queue_Forget key ;;
            queue_Done key ;;
            mret (Some true)
      end
  end.

(** ** Event handlers *)

(** client-go's [cache.MetaNamespaceKeyFunc]: the key of an API object is
    namespace/name, or the name alone when the namespace is empty; a value
    that carries no object metadata has no key. A tombstone is such a value:
    its key is what [cache.DeletionHandlingMetaNamespaceKeyFunc] returns, a
    function the controller does not call. *)
Definition MetaNamespaceKeyFunc (obj : Object) : string * option error :=
  match obj with
  | ObjEndpoints e =>
      if decide (0 < String.length (Namespace e))
      then (Namespace e ++ "/" ++ Name e, None)
      else (Name e, None)
  | _ => ("", Some (ErrorString "object has no meta: object does not implement the Object interfaces"))
  end.

Definition enqueue (obj : Object) : M unit :=
  let '(key, err) := MetaNamespaceKeyFunc obj in
  match err with
  | Some _ => log.Debugf "Couldn't get key for object %v: %v"
  | None => queue_Add key
  end.

(** The type assertion to [*corev1.Endpoints] without the ok result panics
    on a value of another type; [None] stands for the panic. *)
Definition addEndpoints (obj : Object) : M (option unit) :=
  match obj with
  | ObjEndpoints endpoints =>
      log.Tracef "Adding endpoints %s" ;;
      enqueue obj ;;
      mret (Some tt)
  | _ => mret None
  end.

Definition updateEndpoints (old new : Object) : M (option unit) :=
  match new with
  | ObjEndpoints newEndpoints =>
      log.Tracef "Updating endpoints %s" ;;
      enqueue new ;;
      mret (Some tt)
  | _ => mret None
  end.

Definition deleteEndpoints (obj : Object) : M unit :=
  match obj with
  | ObjEndpoints endpoints =>
      log.Tracef "Deleting endpoints %s" ;;
      enqueue obj
  | DeletedFinalStateUnknown _ (ObjEndpoints endpoints) =>
      log.Tracef "Deleting endpoints %s" ;;
      enqueue obj
  | DeletedFinalStateUnknown _ _ =>
      log.Debugf "Tombstone contained object that is not an endpoint %#v"
  | _ =>
      log.Debugf "Couldn't get object from tombstone %#v"
  end.

(** ** Read path *)

Definition GetPodMetadataNames (nodeName ns podName : string)
    : M (list string * option error) :=
  let cacheKey := BuildAgentKey metadataMapperCachePrefix nodeName in
  metaBundleInterface ← Cache_Get cacheKey;
  match metaBundleInterface with
  | None =>
      log.Tracef "no metadata was found for the pod %s on node %s" ;;
      mret ([], None)
  | Some (NotABundle _) =>
      mret ([], Some (ErrorString ("invalid cache format for the cacheKey: " ++ cacheKey)))
  | Some (PtrBundle metaBundle) =>
      '(serviceList, foundServices) ← ServicesForPod metaBundle ns podName;
      if negb foundServices then
        log.Tracef "no cached services list found for the pod %s on the node %s" ;;
        mret ([], None)
      else
        log.Debugf "CacheKey: %s, with %d services" ;;
        mret ((λ s, "kube_service:" ++ s) <$> serviceList, None)
  end.

(** ** Vocabulary of the properties *)

Definition lookup2 {V} (m2 : gmap string (gmap string V)) (k1 k2 : string) : option V :=
  m2 !! k1 ≫= (.!! k2).

(** The address validity filter: the pod target is present, of kind "Pod",
    with non-empty name and namespace, and the node name is present. A valid
    address yields (node, namespace, pod name). *)
Definition address_entry (address : EndpointAddress) : option (string * string * string) :=
  match TargetRef address, NodeName address with
  | Some ref, Some nodeName =>
      if decide (ref_Kind ref = "Pod" ∧ ref_Name ref ≠ "" ∧ ref_Namespace ref ≠ "")
      then Some (nodeName, ref_Namespace ref, ref_Name ref)
      else None
  | _, _ => None
  end.

(** The addresses of an endpoint object, in the order they are iterated. *)
Definition all_addresses (endpoints : Endpoints) : list EndpointAddress :=
  concat (Addresses <$> Subsets endpoints).

(** The pod name a valid address contributes to (node, namespace). *)
Definition pod_on (nodeName namespace : string) (address : EndpointAddress) : option string :=
  match address_entry address with
  | Some (n, ns, podName) =>
      if decide (n = nodeName ∧ ns = namespace) then Some podName else None
  | None => None
  end.

(** The pod name of the last valid address of (node, namespace). *)
Definition retained_pod (endpoints : Endpoints) (nodeName namespace : string) : option string :=
  last (omap (pod_on nodeName namespace) (all_addresses endpoints)).

(** The endpoint object without its invalid addresses. *)
Definition valid_only (endpoints : Endpoints) : Endpoints :=
  mkEndpoints (Namespace endpoints) (Name endpoints)
    ((λ subset, mkEndpointSubset
                  (filter (λ a, is_Some (address_entry a)) (Addresses subset)))
       <$> Subsets endpoints).

(** The service names the cache holds for a pod of a node; empty when the
    node has no bundle or the pod no entry. *)
Definition cachedServices (w : World) (nodeName ns podName : string) : gset string :=
  match store w !! BuildAgentKey metadataMapperCachePrefix nodeName with
  | Some (PtrBundle l, _) => ServicesMapper.of_pod (Services (deref w l)) ns podName
  | _ => ∅
  end.

(** The services mapper cached for a node, as the package's test reads it. *)
Definition bundle_of (w : World) (nodeName : string) : option ServicesMapper :=
  match store w !! BuildAgentKey metadataMapperCachePrefix nodeName with
  | Some (PtrBundle l, _) => Services <$> heap w !! l
  | _ => None
  end.

(** Pointer discipline of the cache: no bundle is stored under two keys and
    every stored pointer has been allocated. *)
Record wf (w : World) : Prop := mk_wf {
  wf_inj : ∀ k1 k2 l t1 t2,
    store w !! k1 = Some (PtrBundle l, t1) →
    store w !! k2 = Some (PtrBundle l, t2) → k1 = k2;
  wf_fresh : ∀ k l t, store w !! k = Some (PtrBundle l, t) → l < next_loc w
}.

Definition set_all (svc : string) (kvs : list (string * string)) (sm : ServicesMapper)
    : ServicesMapper :=
  foldl (λ sm '(ns, pod), ServicesMapper.Set_ sm ns pod svc) sm kvs.

(** A sequence of add/update reconciliations, each of a found object. *)
Definition reconcile_all (eps : list Endpoints) : M unit :=
  forM_ eps (λ endpoints, mapService endpoints ;; mret tt).

(** Names of the objects of a sequence that have a valid address
    (node, namespace, pod). *)
Definition names_referencing (eps : list Endpoints) (n ns pod : string) : gset string :=
  list_to_set
    (Name <$> filter (λ e, Exists (λ a, address_entry a = Some (n, ns, pod))
                                  (all_addresses e)) eps).

(** Names of the objects of a sequence whose last valid address of
    (node, namespace) names the pod. *)
Definition names_retaining (eps : list Endpoints) (n ns pod : string) : gset string :=
  list_to_set (Name <$> filter (λ e, retained_pod e n ns = Some pod) eps).

(** Whether the cache holds a bundle for a node, and the nodes of a listing
    up to the first one without a bundle. *)
Definition has_bundle (w : World) (nodeName : string) : bool :=
  match store w !! BuildAgentKey metadataMapperCachePrefix nodeName with
  | Some (PtrBundle _, _) => true
  | _ => false
  end.

Fixpoint cleaned (w : World) (nodes : list Node) : list string :=
  match nodes with
  | [] => []
  | node :: rest =>
      if has_bundle w (node_Name node) then node_Name node :: cleaned w rest else []
  end.

(** Events of the read path: logging and read locks. *)
Definition read_event (e : event) : Prop :=
  match e with
  | EvLog _ _ | EvRLock _ | EvRUnlock _ => True
  | _ => False
  end.

(** What [reconcileKey] returns, from the key and the listers. *)
Definition lookup_outcome (key : string) : option error :=
  let '(namespace, name, err) := SplitMetaNamespaceKey key in
  match err with
  | Some _ => err
  | None =>
      match endpointsLister m namespace name with
      | inl _ => None
      | inr (StatusNotFound _) =>
          match nodeLister m with
          | inr e => Some e
          | inl _ => None
          end
      | inr e => Some e
      end
  end.

(** A worker step on a key followed by the end of the key's backoff delay. *)
Definition attempt (key : string) : M (option bool) :=
  r ← processNextWorkItem;
  queue_ready key ;;
  mret r.

(** The key is queued once, with [n] failures counted. *)
Definition pending (q : WorkQueue) (key : string) (n : nat) : Prop :=
  q_items q = [key] ∧ key ∈ q_dirty q ∧ (key ∉ q_processing q) ∧
  (key ∉ q_waiting q) ∧ workqueue.NumRequeues key q = n ∧
  q_shuttingDown q = false.

(** The key is neither queued nor parked and has no failure count. *)
Definition idle (q : WorkQueue) (key : string) : Prop :=
  q_items q = [] ∧ (key ∉ q_dirty q) ∧ (key ∉ q_processing q) ∧
  (key ∉ q_waiting q) ∧ q_failures q !! key = None.

(** ** Example objects *)

Definition pod_address (nodeName namespace podName : string) : EndpointAddress :=
  mkEndpointAddress (Some (mkObjectReference "Pod" namespace podName)) (Some nodeName).

(** svc1 with two pods of namespace foo on node1. *)
Definition ex_svc1_two_pods : Endpoints :=
  mkEndpoints "default" "svc1"
    [mkEndpointSubset [pod_address "node1" "foo" "podA";
                       pod_address "node1" "foo" "podB"]].

(** svc1 with one pod, on node2. *)
Definition ex_svc1_on_node2 : Endpoints :=
  mkEndpoints "default" "svc1" [mkEndpointSubset [pod_address "node2" "foo" "podA"]].

(** svc2 with one pod on node1 and an address without node name. *)
Definition ex_svc2 : Endpoints :=
  mkEndpoints "default" "svc2"
    [mkEndpointSubset [pod_address "node1" "foo" "podB";
                       mkEndpointAddress (Some (mkObjectReference "Pod" "foo" "podC")) None]].

(** Listers of a cluster with nodes node1 and node2 in which the looked up
    endpoints object is gone. *)
Definition ex_deleted : MetadataController :=
  mkController (inl [mkNode "node1"; mkNode "node2"])
               (λ _ _, inr (StatusNotFound "endpoints not found")).

(** The same cluster with the nodes listed in the other order. *)
Definition ex_deleted_node2_first : MetadataController :=
  mkController (inl [mkNode "node2"; mkNode "node1"])
               (λ _ _, inr (StatusNotFound "endpoints not found")).

(** Listers whose endpoints lookup fails with an error other than not-found. *)
Definition ex_lookup_fails : MetadataController :=
  mkController (inl []) (λ _ _, inr (ErrorString "store unavailable")).

(** The objects of [TestMetadataControllerMapServices]. *)
Definition test_one_service : list Endpoints :=
  [mkEndpoints "" "svc1"
     [mkEndpointSubset [pod_address "node1" "foo" "pod1_name";
                        pod_address "node2" "foo" "pod2_name"]]].

Definition test_pod_added : list Endpoints :=
  [mkEndpoints "" "svc1"
     [mkEndpointSubset [pod_address "node1" "foo" "pod1_name"]];
   mkEndpoints "" "svc1"
     [mkEndpointSubset [pod_address "node1" "foo" "pod1_name";
                        pod_address "node1" "foo" "pod2_name"]]].

Definition ex_prefix : string := "KubernetesMetadataMapping".
Definition ex_expire : Z := 120000000000.

(** ** Worker loop *)

(** How a call of [worker] ends: the loop is left because the queue reported
    its shutdown, or the call waits in [Get] for a key. *)
Inductive worker_exit := Returned | Blocked.

(** [for m.processNextWorkItem() { }], unrolled at most [fuel] times; [None]
    when the fuel runs out first. *)
Fixpoint worker (fuel : nat) : M (option worker_exit) :=
  match fuel with
  | 0 => mret None
  | S fuel =>
      r ← processNextWorkItem;
      match r with
      | None => mret (Some Blocked)
      | Some false => mret (Some Returned)
      | Some true => worker fuel
      end
  end.

(** ** Further vocabulary *)

(** A name without the key separator. *)
Fixpoint slash_free (s : string) : bool :=
  match s with
  | EmptyString => true
  | String c rest => negb (Ascii.eqb c "/"%char) && slash_free rest
  end.

(** The object has a valid address on the node. *)
Definition on_node (endpoints : Endpoints) (nodeName : string) : Prop :=
  ∃ a ns p, a ∈ all_addresses endpoints ∧ address_entry a = Some (nodeName, ns, p).

(** A computation that neither reads nor writes the work queue. *)
Definition queue_blind {A} (c : M A) : Prop :=
  ∀ f w, c (set_queue f w) = ((c w).1, set_queue f (c w).2).

(** Two worlds with the same cache: store, bundles and allocator. *)
Definition same_cache (w1 w2 : World) : Prop :=
  store w1 = store w2 ∧ heap w1 = heap w2 ∧ next_loc w1 = next_loc w2.

(** A computation whose result and whose effect on the cache depend on the
    cache alone. *)
Definition cache_fn {A} (c : M A) : Prop :=
  ∀ w1 w2, same_cache w1 w2 → (c w1).1 = (c w2).1 ∧ same_cache (c w1).2 (c w2).2.

(** The tag the read path makes of a service name. *)
Definition kube_service (svc : string) : string := "kube_service:" ++ svc.

(** What happens to the queue between two looks at it: a worker takes a
    step, the backoff delay of a parked key ends, a notification of an
    object with the given key arrives, or [Run] returns and its deferred
    [ShutDown] runs. *)
Inductive queue_step :=
  | WorkerStep
  | TimerFires (key : string)
  | Notified (key : string)
  | ShutsDown.

Definition run_step (s : queue_step) : M unit :=
  match s with
  | WorkerStep => processNextWorkItem ;; mret tt
  | TimerFires key => queue_ready key
  | Notified key => queue_Add key
  | ShutsDown => queue_ShutDown
  end.

Definition run_steps (steps : list queue_step) : M unit := forM_ steps run_step.

(** The queue holds nothing of the key: it is not queued, not marked, not
    parked for a delayed add, and has no failure count. *)
Definition gone (q : WorkQueue) (key : string) : Prop :=
  (key ∉ q_items q) ∧ (key ∉ q_dirty q) ∧ (key ∉ q_processing q) ∧
  (key ∉ q_waiting q) ∧ q_failures q !! key = None.

(** The keys reconciled one after the other. *)
Definition reconcile_keys (keys : list string) : M unit :=
  forM_ keys (λ key, reconcileKey key ;; mret tt).

(** Every bundle pointer in the cache refers to a bundle. *)
Definition allocated (w : World) : Prop :=
  ∀ k l t, store w !! k = Some (PtrBundle l, t) → is_Some (heap w !! l).

(** ** Further example objects *)

(** Listers that find svc2 under every key. *)
Definition ex_finds_svc2 : MetadataController :=
  mkController (inl []) (λ _ _, inl ex_svc2).

(** svc3 with addresses the filter skips: no target, a target that is not a
    pod, a pod without node name. *)
Definition ex_no_valid_address : Endpoints :=
  mkEndpoints "default" "svc3"
    [mkEndpointSubset
       [mkEndpointAddress None (Some "node1");
        mkEndpointAddress (Some (mkObjectReference "Node" "" "node1")) (Some "node1");
        mkEndpointAddress (Some (mkObjectReference "Pod" "foo" "podA")) None]].

(** ** Properties *)

(** *** Running computations *)

Lemma run_bind {A B} (c : M A) (f : A → M B) w :
  (c ≫= f) w = f (c w).1 (c w).2.
Proof. unfold mbind, M_bind. by destruct (c w). Qed.

Lemma exec_bind {A B} (c : M A) (f : A → M B) w :
  exec (c ≫= f) w = exec (f (eval c w)) (exec c w).
Proof. unfold exec, eval. by rewrite run_bind. Qed.

Lemma eval_bind {A B} (c : M A) (f : A → M B) w :
  eval (c ≫= f) w = eval (f (eval c w)) (exec c w).
Proof. unfold exec, eval. by rewrite run_bind. Qed.

Lemma exec_forM_cons {A} (x : A) xs body w :
  exec (forM_ (x :: xs) body) w = exec (forM_ xs body) (exec (body x) w).
Proof. simpl. by rewrite exec_bind. Qed.

(** *** The transient node-to-pods map *)

(** One iteration of the address loop either skips the address or records
    its pod under (node, namespace). *)
Lemma nodeToPods_step_entry acc a :
  nodeToPods_step acc a =
  match address_entry a with
  | None => acc
  | Some (n, ns, p) => <[n := <[ns := p]> (default ∅ (acc !! n))]> acc
  end.
Proof.
  unfold nodeToPods_step, address_entry.
  destruct (TargetRef a) as [ref|]; [|done].
  destruct (String.eqb_spec (ref_Kind ref) "Pod") as [Hk|Hk]; simpl.
  2:{ destruct (NodeName a); [|done]. rewrite decide_False; [done|tauto]. }
  destruct (String.eqb_spec (ref_Name ref) "") as [Hn|Hn]; simpl.
  { destruct (NodeName a); [|done]. rewrite decide_False; [done|tauto]. }
  destruct (String.eqb_spec (ref_Namespace ref) "") as [Hs|Hs]; simpl.
  { destruct (NodeName a); [|done]. rewrite decide_False; [done|tauto]. }
  destruct (NodeName a) as [n|]; [|done].
  rewrite decide_True by done.
  destruct (acc !! n) eqn:E; simpl; [by rewrite E|].
  by rewrite lookup_insert_eq, insert_insert_eq.
Qed.

Lemma nodeToPods_step_invalid acc a :
  address_entry a = None → nodeToPods_step acc a = acc.
Proof. intros H. by rewrite nodeToPods_step_entry, H. Qed.

Lemma lookup2_nodeToPods_step acc a n ns :
  lookup2 (nodeToPods_step acc a) n ns =
  match pod_on n ns a with
  | Some p => Some p
  | None => lookup2 acc n ns
  end.
Proof.
  rewrite nodeToPods_step_entry. unfold pod_on, lookup2.
  destruct (address_entry a) as [[[n' ns'] p]|]; [|done].
  destruct (decide (n' = n)) as [->|Hn].
  - rewrite lookup_insert_eq. simpl.
    destruct (decide (ns' = ns)) as [->|Hs].
    + rewrite lookup_insert_eq. by rewrite decide_True.
    + rewrite lookup_insert_ne by done. rewrite decide_False by tauto.
      by destruct (acc !! n).
  - rewrite lookup_insert_ne by done. by rewrite decide_False by tauto.
Qed.

Lemma lookup2_foldl_nodeToPods_step l acc n ns :
  lookup2 (foldl nodeToPods_step acc l) n ns =
  match last (omap (pod_on n ns) l) with
  | Some p => Some p
  | None => lookup2 acc n ns
  end.
Proof.
  induction l as [|a l IH] using rev_ind; [done|].
  rewrite foldl_app, omap_app. simpl.
  rewrite lookup2_nodeToPods_step.
  destruct (pod_on n ns a) as [p|]; simpl.
  - by rewrite last_snoc.
  - by rewrite app_nil_r.
Qed.

Lemma build_nodeToPods_flat endpoints :
  build_nodeToPods endpoints = foldl nodeToPods_step ∅ (all_addresses endpoints).
Proof.
  unfold build_nodeToPods, all_addresses.
  generalize (∅ : gmap string (gmap string string)).
  induction (Subsets endpoints) as [|s ss IH]; intros acc; [done|].
  simpl. by rewrite foldl_app, IH.
Qed.

(** The transient map, read at (node, namespace). *)
Lemma lookup2_build_nodeToPods endpoints n ns :
  lookup2 (build_nodeToPods endpoints) n ns = retained_pod endpoints n ns.
Proof.
  rewrite build_nodeToPods_flat, lookup2_foldl_nodeToPods_step.
  unfold retained_pod. by destruct (last _).
Qed.

Lemma foldl_nodeToPods_step_filter l acc :
  foldl nodeToPods_step acc (filter (λ a, is_Some (address_entry a)) l) =
  foldl nodeToPods_step acc l.
Proof.
  revert acc. induction l as [|a l IH]; intros acc; [done|].
  rewrite filter_cons. destruct (decide (is_Some (address_entry a))) as [Hv|Hv].
  - simpl. apply IH.
  - simpl. rewrite nodeToPods_step_invalid; [apply IH|].
    destruct (address_entry a); [|done]. by destruct Hv.
Qed.

Lemma build_nodeToPods_valid_only endpoints :
  build_nodeToPods (valid_only endpoints) = build_nodeToPods endpoints.
Proof.
  unfold build_nodeToPods, valid_only. simpl.
  generalize (∅ : gmap string (gmap string string)).
  induction (Subsets endpoints) as [|s ss IH]; intros acc; [done|].
  simpl. by rewrite foldl_nodeToPods_step_filter, IH.
Qed.

Lemma retained_pod_from_address endpoints n ns p :
  retained_pod endpoints n ns = Some p →
  ∃ a, a ∈ all_addresses endpoints ∧ address_entry a = Some (n, ns, p).
Proof.
  unfold retained_pod. intros Hl.
  apply last_Some_elem_of in Hl. apply list_elem_of_omap in Hl as (a & Ha & Hp).
  exists a. split; [done|]. unfold pod_on in Hp.
  destruct (address_entry a) as [[[n' ns'] p']|]; [|done].
  case_decide as Hd; [|done]. destruct Hd as [-> ->]. by injection Hp as ->.
Qed.

(** C4. [mapService] derives its node-to-pod entries only from valid
    addresses (pod target present, kind "Pod", non-empty pod name and
    namespace, node name present): an invalid address leaves the transient
    map as it is, every entry of the map stems from a valid address, and the
    whole call (transient map and every cache write) is the one made for
    the object without its invalid addresses. *)
Theorem mapService_ignores_invalid_addresses endpoints :
  (∀ acc a, address_entry a = None → nodeToPods_step acc a = acc) ∧
  (∀ n ns p, lookup2 (build_nodeToPods endpoints) n ns = Some p →
     ∃ a, a ∈ all_addresses endpoints ∧ address_entry a = Some (n, ns, p)) ∧
  build_nodeToPods (valid_only endpoints) = build_nodeToPods endpoints ∧
  (∀ w, mapService (valid_only endpoints) w = mapService endpoints w).
Proof.
  split; [apply nodeToPods_step_invalid|]. split.
  - intros n ns p. rewrite lookup2_build_nodeToPods. apply retained_pod_from_address.
  - split; [apply build_nodeToPods_valid_only|].
    intros w. unfold mapService. by rewrite build_nodeToPods_valid_only.
Qed.

(** C5. Within one [mapService] pass, the transient map holds for each
    (node, namespace) the pod name of the last valid address iterated with
    that node and namespace, and nothing when there is none. *)
Theorem nodeToPods_last_write_wins endpoints nodeName namespace :
  lookup2 (build_nodeToPods endpoints) nodeName namespace =
  last (omap (pod_on nodeName namespace) (all_addresses endpoints)).
Proof. apply lookup2_build_nodeToPods. Qed.

(** *** Services mapper *)

Lemma of_pod_Set sm ns pod svc ns' pod' :
  ServicesMapper.of_pod (ServicesMapper.Set_ sm ns pod svc) ns' pod' =
  ServicesMapper.of_pod sm ns' pod' ∪
    (if decide (ns = ns' ∧ pod = pod') then {[svc]} else ∅).
Proof.
  unfold ServicesMapper.of_pod, ServicesMapper.Set_.
  destruct (decide (ns = ns')) as [->|Hns].
  - rewrite lookup_insert_eq. simpl.
    destruct (decide (pod = pod')) as [->|Hp].
    + rewrite lookup_insert_eq, decide_True by done. simpl.
      by destruct (sm !! ns').
    + rewrite lookup_insert_ne, decide_False by tauto.
      rewrite union_empty_r_L. by destruct (sm !! ns').
  - rewrite lookup_insert_ne, decide_False by tauto.
    by rewrite union_empty_r_L.
Qed.

Lemma of_pod_set_all svc kvs sm ns pod :
  ServicesMapper.of_pod (set_all svc kvs sm) ns pod =
  ServicesMapper.of_pod sm ns pod ∪ (if decide ((ns, pod) ∈ kvs) then {[svc]} else ∅).
Proof.
  unfold set_all. induction kvs as [|[ns' pod'] kvs IH] using rev_ind.
  - simpl. by rewrite union_empty_r_L.
  - rewrite foldl_app. simpl. rewrite of_pod_Set, IH. clear IH.
    destruct (decide ((ns, pod) ∈ kvs)) as [Hin|Hin].
    + rewrite (decide_True (P := (ns, pod) ∈ (kvs ++ _)%list)) by (apply elem_of_app; auto).
      case_decide; set_solver.
    + destruct (decide (ns' = ns ∧ pod' = pod)) as [[-> ->]|Hne].
      * rewrite decide_True by (apply elem_of_app; right; apply list_elem_of_singleton; done).
        set_solver.
      * rewrite decide_False; [set_solver|].
        intros [?|[=]%list_elem_of_singleton]%elem_of_app; [done|]. naive_solver.
Qed.

(** [Delete] removes the service from a pod's set and prunes the entry when
    the set becomes empty. *)
Lemma lookup2_Delete sm ns svc pod :
  lookup2 (ServicesMapper.Delete sm ns svc) ns pod =
  match lookup2 sm ns pod with
  | Some svcs => if decide (svcs ∖ {[svc]} = ∅) then None else Some (svcs ∖ {[svc]})
  | None => None
  end.
Proof.
  unfold ServicesMapper.Delete, lookup2.
  destruct (sm !! ns) as [pods|] eqn:E; simpl; [|by rewrite E].
  rewrite lookup_insert_eq. simpl.
  rewrite map_lookup_filter, lookup_fmap.
  destruct (pods !! pod) as [svcs|]; simpl; [|done].
  by repeat case_decide.
Qed.

Lemma of_pod_Delete sm ns svc ns' pod :
  ServicesMapper.of_pod (ServicesMapper.Delete sm ns svc) ns' pod =
  if decide (ns' = ns) then ServicesMapper.of_pod sm ns' pod ∖ {[svc]}
  else ServicesMapper.of_pod sm ns' pod.
Proof.
  case_decide as Hns.
  - subst ns'. unfold ServicesMapper.of_pod. fold (lookup2 (ServicesMapper.Delete sm ns svc) ns pod).
    rewrite lookup2_Delete. unfold lookup2.
    destruct (sm !! ns ≫= _) as [svcs|]; simpl; [|set_solver].
    case_decide as He; simpl; [by rewrite He|done].
  - unfold ServicesMapper.of_pod, ServicesMapper.Delete.
    destruct (sm !! ns); [|done]. by rewrite lookup_insert_ne.
Qed.

(** *** Cache keys and bundle pointers *)

Lemma string_app_inj (p s1 s2 : string) : p ++ s1 = p ++ s2 → s1 = s2.
Proof. induction p as [|c p IH]; simpl; [done|]. intros [=]. auto. Qed.

Lemma BuildAgentKey_inj p n1 n2 : BuildAgentKey p n1 = BuildAgentKey p n2 → n1 = n2.
Proof.
  unfold BuildAgentKey. intros H%string_app_inj. by apply (string_app_inj "/").
Qed.

Lemma wf_lookup_ne w n n' l l' t t' :
  wf w → n' ≠ n →
  store w !! BuildAgentKey metadataMapperCachePrefix n = Some (PtrBundle l, t) →
  store w !! BuildAgentKey metadataMapperCachePrefix n' = Some (PtrBundle l', t') → l' ≠ l.
Proof.
  intros Hwf Hne H1 H2 ->. apply Hne. eapply BuildAgentKey_inj, (wf_inj _ Hwf); eauto.
Qed.

Lemma wf_insert_existing w k l t0 t h q tr :
  wf w → store w !! k = Some (PtrBundle l, t0) →
  wf (mkWorld (<[k := (PtrBundle l, t)]> (store w)) h (next_loc w) q tr).
Proof.
  intros Hwf Hk. split; simpl.
  - intros k1 k2 l0 t1 t2. rewrite !lookup_insert.
    destruct (decide (k = k1)) as [<-|], (decide (k = k2)) as [<-|];
      intros [=] [=]; subst; try done.
    + eapply (wf_inj _ Hwf); eauto.
    + eapply (wf_inj _ Hwf); eauto.
    + eapply (wf_inj _ Hwf); eauto.
  - intros k1 l0 t1. rewrite lookup_insert.
    destruct (decide (k = k1)) as [<-|]; intros [=]; subst;
      eapply (wf_fresh _ Hwf); eauto.
Qed.

Lemma wf_insert_fresh w k t h q tr :
  wf w →
  wf (mkWorld (<[k := (PtrBundle (next_loc w), t)]> (store w)) h (S (next_loc w)) q tr).
Proof.
  intros Hwf. split; simpl.
  - intros k1 k2 l0 t1 t2. rewrite !lookup_insert.
    destruct (decide (k = k1)) as [<-|], (decide (k = k2)) as [<-|];
      intros H1 H2; try done.
    + injection H1 as <- <-. apply (wf_fresh _ Hwf) in H2. lia.
    + injection H2 as <- <-. apply (wf_fresh _ Hwf) in H1. lia.
    + eapply (wf_inj _ Hwf); eauto.
  - intros k1 l0 t1. rewrite lookup_insert.
    destruct (decide (k = k1)) as [<-|]; intros H1.
    + injection H1 as <- <-. lia.
    + apply (wf_fresh _ Hwf) in H1. lia.
Qed.

Lemma has_bundle_insert_existing w k l t0 t h q tr n :
  store w !! k = Some (PtrBundle l, t0) →
  has_bundle (mkWorld (<[k := (PtrBundle l, t)]> (store w)) h (next_loc w) q tr) n =
  has_bundle w n.
Proof.
  intros Hk. unfold has_bundle. simpl. rewrite lookup_insert.
  case_decide as Hd; [|done]. by rewrite <- Hd, Hk.
Qed.

Lemma cleaned_insert_existing w k l t0 t h q tr nodes :
  store w !! k = Some (PtrBundle l, t0) →
  cleaned (mkWorld (<[k := (PtrBundle l, t)]> (store w)) h (next_loc w) q tr) nodes =
  cleaned w nodes.
Proof.
  intros Hk. induction nodes as [|node rest IH]; [done|].
  simpl. rewrite IH. by erewrite has_bundle_insert_existing.
Qed.

(** *** Merging an object into the cache *)

Lemma forM_Services_Set l svc kvs w :
  ∃ h, forM_ kvs (λ '(ns, pod), Services_Set l ns pod svc) w = (tt, set_heap (λ _, h) w) ∧
       default (mkBundle ∅) (h !! l) = mkBundle (set_all svc kvs (Services (deref w l))) ∧
       ∀ l', l' ≠ l → h !! l' = heap w !! l'.
Proof.
  revert w. induction kvs as [|[ns pod] kvs IH]; intros w.
  - exists (heap w). split; [by destruct w|]. split; [|done].
    unfold deref. simpl. by destruct (default _ _).
  - simpl. rewrite run_bind. simpl.
    edestruct IH as (h & -> & Hl & Hother). exists h. split; [done|].
    split.
    + rewrite Hl. unfold deref; simpl. by rewrite lookup_insert_eq.
    + intros l' Hne. rewrite Hother by done. simpl. by rewrite lookup_insert_ne.
Qed.

(** The node has a bundle: it is updated in place and stored again. *)
Lemma mapService_node_existing svc n pods w l t0 :
  store w !! BuildAgentKey metadataMapperCachePrefix n = Some (PtrBundle l, t0) →
  ∃ h tr,
    exec (mapService_node svc (n, pods)) w =
      mkWorld (<[BuildAgentKey metadataMapperCachePrefix n := (PtrBundle l, metadataMapExpire)]> (store w)) h
              (next_loc w) (queue w) tr ∧
    default (mkBundle ∅) (h !! l) =
      mkBundle (set_all svc (map_to_list pods) (Services (deref w l))) ∧
    ∀ l', l' ≠ l → h !! l' = heap w !! l'.
Proof.
  intros Hs. unfold exec, mapService_node, getMetadataMapBundle, Cache_Get.
  rewrite !run_bind. simpl. rewrite Hs. simpl.
  match goal with |- context [forM_ ?kvs _ ?w0] =>
    destruct (forM_Services_Set l svc kvs w0) as (h & Hrun & Hl & Hother) end.
  rewrite Hrun. simpl. eexists _, _. split; [reflexivity|].
  split; [exact Hl | exact Hother].
Qed.

(** The node has no bundle: a fresh one is allocated, filled and stored. *)
Lemma mapService_node_fresh svc n pods w :
  (∀ l t0, store w !! BuildAgentKey metadataMapperCachePrefix n ≠ Some (PtrBundle l, t0)) →
  ∃ h tr,
    exec (mapService_node svc (n, pods)) w =
      mkWorld (<[BuildAgentKey metadataMapperCachePrefix n := (PtrBundle (next_loc w), metadataMapExpire)]> (store w)) h
              (S (next_loc w)) (queue w) tr ∧
    default (mkBundle ∅) (h !! next_loc w) =
      mkBundle (set_all svc (map_to_list pods) ∅) ∧
    ∀ l', l' ≠ next_loc w → h !! l' = heap w !! l'.
Proof.
  intros Hs. unfold exec, mapService_node, getMetadataMapBundle, Cache_Get.
  rewrite !run_bind. simpl.
  assert (match fst <$> store w !! BuildAgentKey metadataMapperCachePrefix n with
          | Some (PtrBundle l) => False | _ => True end) as Hc.
  { destruct (store w !! _) as [[[l|d] t0]|] eqn:E; simpl; try done.
    by apply (Hs l t0). }
  destruct (fst <$> store w !! BuildAgentKey metadataMapperCachePrefix n) as [[l|d]|]; [done| |];
    simpl; rewrite ?run_bind; simpl.
  all: match goal with |- context [forM_ ?kvs _ ?w0] =>
    destruct (forM_Services_Set (next_loc w) svc kvs w0) as (h & Hrun & Hl & Hother) end.
  all: rewrite Hrun; simpl; eexists _, _; (split; [reflexivity|]).
  all: simpl; split; [rewrite Hl; unfold deref; simpl; by rewrite lookup_insert_eq|].
  all: intros l' Hne; rewrite Hother by done; simpl; by rewrite lookup_insert_ne.
Qed.

Lemma mapService_node_spec svc n pods w :
  wf w →
  let w' := exec (mapService_node svc (n, pods)) w in
  wf w' ∧ queue w' = queue w ∧
  ∀ n' ns pod,
    cachedServices w' n' ns pod =
    cachedServices w n' ns pod ∪
      (if decide (n' = n ∧ pods !! ns = Some pod) then {[svc]} else ∅).
Proof.
  intros Hwf w'. subst w'.
  destruct (store w !! BuildAgentKey metadataMapperCachePrefix n) as [[[l|d] t0]|] eqn:E.
  1:{ destruct (mapService_node_existing svc n pods w l t0 E) as (h & tr & -> & Hl & Hother).
    split; [by eapply wf_insert_existing|]. split; [done|].
    intros n' ns pod. unfold cachedServices at 1. simpl.
    destruct (decide (n' = n)) as [->|Hne].
    + rewrite lookup_insert_eq. unfold deref. simpl. rewrite Hl. simpl.
      rewrite of_pod_set_all. unfold cachedServices. rewrite E.
      f_equal. apply decide_ext. rewrite elem_of_map_to_list. tauto.
    + rewrite lookup_insert_ne by (intros ?%BuildAgentKey_inj; done).
      rewrite decide_False, union_empty_r_L by tauto.
      unfold cachedServices.
      destruct (store w !! BuildAgentKey metadataMapperCachePrefix n') as [[[l'|d'] t']|] eqn:E'; try done.
      unfold deref. simpl. rewrite Hother; [done|].
      eapply wf_lookup_ne; eauto. }
  all: destruct (mapService_node_fresh svc n pods w) as (h & tr & -> & Hl & Hother);
    [intros l t1; rewrite E; done|].
  all: split; [by apply wf_insert_fresh|]; split; [done|].
  all: intros n' ns pod; unfold cachedServices at 1; simpl.
  all: destruct (decide (n' = n)) as [->|Hne].
  1,3: rewrite lookup_insert_eq; unfold deref; simpl; rewrite Hl; simpl;
    rewrite of_pod_set_all; unfold cachedServices; rewrite E;
    f_equal; apply decide_ext; rewrite elem_of_map_to_list; tauto.
  all: rewrite lookup_insert_ne by (intros ?%BuildAgentKey_inj; done).
  all: rewrite decide_False, union_empty_r_L by tauto.
  all: unfold cachedServices.
  all: destruct (store w !! BuildAgentKey metadataMapperCachePrefix n') as [[[l'|d'] t']|] eqn:E'; try done.
  all: unfold deref; simpl; rewrite Hother; [done|].
  all: apply (wf_fresh _ Hwf) in E'; lia.
Qed.

Lemma forM_mapService_node_spec svc entries w :
  wf w →
  let w' := exec (forM_ entries (mapService_node svc)) w in
  wf w' ∧ queue w' = queue w ∧
  ∀ n ns pod,
    cachedServices w' n ns pod =
    cachedServices w n ns pod ∪
      (if decide (Exists (λ e, e.1 = n ∧ e.2 !! ns = Some pod) entries)
       then {[svc]} else ∅).
Proof.
  revert w. induction entries as [|[n0 pods0] entries IH]; intros w Hwf.
  - split; [done|]. split; [done|]. intros n ns pod. simpl.
    by rewrite union_empty_r_L.
  - rewrite exec_forM_cons.
    destruct (mapService_node_spec svc n0 pods0 w Hwf) as (Hwf1 & Hq1 & H1).
    destruct (IH _ Hwf1) as (Hwf2 & Hq2 & H2).
    split; [done|]. split; [congruence|].
    intros n ns pod. rewrite H2, H1.
    destruct (decide (n = n0 ∧ pods0 !! ns = Some pod)) as [Hh|Hh].
    + rewrite (decide_True (P := Exists _ (_ :: _))) by (apply Exists_cons_hd; simpl; naive_solver).
      case_decide; set_solver.
    + rewrite union_empty_r_L. f_equal. apply decide_ext.
      rewrite Exists_cons. simpl. naive_solver.
Qed.

(** The order in which the nodes of the transient map are visited (Go leaves
    it unspecified) does not show in the cached service sets. *)
Lemma forM_mapService_node_perm svc entries entries' w n ns pod :
  wf w → entries ≡ₚ entries' →
  cachedServices (exec (forM_ entries (mapService_node svc)) w) n ns pod =
  cachedServices (exec (forM_ entries' (mapService_node svc)) w) n ns pod.
Proof.
  intros Hwf Hperm.
  destruct (forM_mapService_node_spec svc entries w Hwf) as (_ & _ & ->).
  destruct (forM_mapService_node_spec svc entries' w Hwf) as (_ & _ & ->).
  f_equal. apply decide_ext. rewrite !Exists_exists.
  by setoid_rewrite Hperm.
Qed.

Lemma mapService_spec endpoints w :
  wf w →
  let w' := exec (mapService endpoints) w in
  wf w' ∧ queue w' = queue w ∧
  ∀ n ns pod,
    cachedServices w' n ns pod =
    cachedServices w n ns pod ∪
      (if decide (retained_pod endpoints n ns = Some pod)
       then {[Name endpoints]} else ∅).
Proof.
  intros Hwf. unfold mapService. simpl. rewrite exec_bind.
  destruct (forM_mapService_node_spec (Name endpoints)
              (map_to_list (build_nodeToPods endpoints)) w Hwf) as (Hwf1 & Hq1 & H1).
  split; [done|]. split; [done|].
  intros n ns pod. unfold exec at 1. simpl. rewrite H1. f_equal.
  apply decide_ext. rewrite <- lookup2_build_nodeToPods.
  rewrite Exists_exists. unfold lookup2. split.
  - intros ([n' pods] & Hin%elem_of_map_to_list & Hn & Hp). simpl in *. subst.
    by rewrite Hin.
  - destruct (build_nodeToPods endpoints !! n) as [pods|] eqn:E; [|done].
    simpl. intros Hp. exists (n, pods). by rewrite elem_of_map_to_list.
Qed.

(** A sequence of reconciliations adds to what the cache held before. *)
Lemma reconcile_all_spec eps w n ns pod :
  wf w →
  wf (exec (reconcile_all eps) w) ∧
  cachedServices (exec (reconcile_all eps) w) n ns pod =
    cachedServices w n ns pod ∪ names_retaining eps n ns pod.
Proof.
  unfold reconcile_all, names_retaining.
  revert w. induction eps as [|e eps IH]; intros w Hwf.
  - split; [done|]. simpl. by rewrite union_empty_r_L.
  - rewrite exec_forM_cons, exec_bind.
    destruct (mapService_spec e w Hwf) as (Hwf1 & _ & H1).
    change (exec (mret ()) ?w0) with w0.
    destruct (IH _ Hwf1) as (Hwf2 & H2). split; [done|].
    rewrite H2, H1, filter_cons. case_decide; simpl; set_solver.
Qed.

(** C2, amended. After a sequence of add/update reconciliations processed
    from an empty cache, the service set stored for a pod of a node is the
    set of names of the objects whose last valid address of that
    (node, namespace) names the pod: names of different services are
    merged, never replaced. *)
Theorem reconcile_all_merges_retained eps w n ns pod :
  store w = ∅ →
  cachedServices (exec (reconcile_all eps) w) n ns pod =
  names_retaining eps n ns pod.
Proof.
  intros Hs.
  assert (wf w) as Hwf by (split; intros *; rewrite Hs, lookup_empty; discriminate).
  destruct (reconcile_all_spec eps w n ns pod Hwf) as [_ ->].
  unfold cachedServices at 1. rewrite Hs, lookup_empty.
  by rewrite union_empty_l_L.
Qed.

Lemma mapService_node_queue svc entry w :
  queue (exec (mapService_node svc entry) w) = queue w.
Proof.
  destruct entry as [n pods].
  destruct (store w !! BuildAgentKey metadataMapperCachePrefix n) as [[[l|d] t0]|] eqn:E.
  - by destruct (mapService_node_existing svc n pods w l t0 E) as (h & tr & -> & _).
  - destruct (mapService_node_fresh svc n pods w) as (h & tr & -> & _); [|done].
    intros l t1. by rewrite E.
  - destruct (mapService_node_fresh svc n pods w) as (h & tr & -> & _); [|done].
    intros l t1. by rewrite E.
Qed.

Lemma mapService_queue endpoints w :
  queue (exec (mapService endpoints) w) = queue w.
Proof.
  unfold mapService. rewrite exec_bind. change (exec (mret None) ?w0) with w0.
  generalize (map_to_list (build_nodeToPods endpoints)). intros entries.
  revert w. induction entries as [|e entries IH]; intros w; [done|].
  by rewrite exec_forM_cons, IH, mapService_node_queue.
Qed.

Lemma mapService_returns_nil endpoints w :
  eval (mapService endpoints) w = None.
Proof. unfold mapService. by rewrite eval_bind. Qed.

(** *** Delete cleanup *)

(** At a node without a bundle the loop returns: the rest of the listing is
    not visited. *)
Lemma mapDeletedService_nodes_missing namespace svc node rest w :
  (∀ l t, store w !! BuildAgentKey metadataMapperCachePrefix (node_Name node) ≠ Some (PtrBundle l, t)) →
  mapDeletedService_nodes namespace svc (node :: rest) w = (None, w).
Proof.
  intros Hs. simpl. unfold getMetadataMapBundle, Cache_Get.
  rewrite !run_bind. simpl.
  destruct (store w !! _) as [[[l|d] t]|] eqn:E; simpl; try done.
  by destruct (Hs l t).
Qed.

Lemma mapDeletedService_nodes_present namespace svc node rest w l t :
  store w !! BuildAgentKey metadataMapperCachePrefix (node_Name node) = Some (PtrBundle l, t) →
  mapDeletedService_nodes namespace svc (node :: rest) w =
  mapDeletedService_nodes namespace svc rest
    (mkWorld (<[BuildAgentKey metadataMapperCachePrefix (node_Name node) := (PtrBundle l, metadataMapExpire)]> (store w))
             (<[l := mkBundle (ServicesMapper.Delete (Services (deref w l)) namespace svc)]> (heap w))
             (next_loc w) (queue w) (trace w ++ [EvLock l; EvUnlock l])).
Proof.
  intros Hs. simpl. unfold getMetadataMapBundle, Cache_Get.
  rewrite !run_bind. simpl. rewrite Hs. simpl.
  rewrite !run_bind. simpl. by rewrite <- app_assoc.
Qed.

Lemma mapDeletedService_nodes_queue namespace svc nodes w :
  queue (exec (mapDeletedService_nodes namespace svc nodes) w) = queue w.
Proof.
  revert w. induction nodes as [|node rest IH]; intros w; [done|].
  destruct (store w !! BuildAgentKey metadataMapperCachePrefix (node_Name node)) as [[[l|d] t]|] eqn:E.
  - unfold exec in *. erewrite mapDeletedService_nodes_present by done.
    by rewrite IH.
  - unfold exec. rewrite mapDeletedService_nodes_missing; [done|].
    intros l t1. by rewrite E.
  - unfold exec. rewrite mapDeletedService_nodes_missing; [done|].
    intros l t1. by rewrite E.
Qed.

Lemma mapDeletedService_nodes_returns_nil namespace svc nodes w :
  eval (mapDeletedService_nodes namespace svc nodes) w = None.
Proof.
  revert w. induction nodes as [|node rest IH]; intros w; [done|].
  destruct (store w !! BuildAgentKey metadataMapperCachePrefix (node_Name node)) as [[[l|d] t]|] eqn:E.
  - unfold eval in *. erewrite mapDeletedService_nodes_present by done.
    by rewrite IH.
  - unfold eval. rewrite mapDeletedService_nodes_missing; [done|].
    intros l t1. by rewrite E.
  - unfold eval. rewrite mapDeletedService_nodes_missing; [done|].
    intros l t1. by rewrite E.
Qed.

Lemma mapDeletedService_queue namespace svc w :
  queue (exec (mapDeletedService namespace svc) w) = queue w.
Proof.
  unfold mapDeletedService. destruct (nodeLister m); [|done].
  apply mapDeletedService_nodes_queue.
Qed.

Lemma cachedServices_Delete_step w n l t0 namespace svc tr n' ns' pod :
  wf w →
  store w !! BuildAgentKey metadataMapperCachePrefix n = Some (PtrBundle l, t0) →
  cachedServices
    (mkWorld (<[BuildAgentKey metadataMapperCachePrefix n := (PtrBundle l, metadataMapExpire)]>
                (store w))
             (<[l := mkBundle (ServicesMapper.Delete (Services (deref w l)) namespace svc)]> (heap w))
             (next_loc w) (queue w) tr) n' ns' pod =
  if decide (n' = n ∧ ns' = namespace) then cachedServices w n' ns' pod ∖ {[svc]}
  else cachedServices w n' ns' pod.
Proof.
  intros Hwf Hk. unfold cachedServices at 1. simpl.
  destruct (decide (n' = n)) as [->|Hne].
  - rewrite lookup_insert_eq. unfold deref at 1. simpl. rewrite lookup_insert_eq. simpl.
    rewrite of_pod_Delete. unfold cachedServices. rewrite Hk.
    apply decide_ext. tauto.
  - rewrite lookup_insert_ne by (intros ?%BuildAgentKey_inj; done).
    rewrite decide_False by tauto. unfold cachedServices.
    destruct (store w !! BuildAgentKey metadataMapperCachePrefix n')
      as [[[l'|d'] t']|] eqn:E'; try done.
    unfold deref. simpl. rewrite lookup_insert_ne; [done|].
    intros ->. apply Hne. eapply BuildAgentKey_inj, (wf_inj _ Hwf); eauto.
Qed.

(** The service is removed from the bundles of the nodes listed before the
    first node without a bundle, and from no other. *)
Lemma mapDeletedService_nodes_spec namespace svc nodes w :
  wf w →
  let w' := exec (mapDeletedService_nodes namespace svc nodes) w in
  wf w' ∧
  ∀ n' ns' pod,
    cachedServices w' n' ns' pod =
    if decide (n' ∈ cleaned w nodes ∧ ns' = namespace)
    then cachedServices w n' ns' pod ∖ {[svc]}
    else cachedServices w n' ns' pod.
Proof.
  revert w. induction nodes as [|node rest IH]; intros w Hwf.
  - split; [done|]. intros n' ns' pod.
    destruct (decide _) as [[?%elem_of_nil _]|_]; [done|reflexivity].
  - destruct (store w !! BuildAgentKey metadataMapperCachePrefix (node_Name node))
      as [[[l|d] t]|] eqn:E.
    2,3: unfold exec; rewrite mapDeletedService_nodes_missing
           by (intros l0 t1; rewrite E; done);
         split; [done|]; intros n' ns' pod;
         destruct (decide _) as [[Hin _]|_]; [|reflexivity];
         simpl in Hin; unfold has_bundle in Hin; rewrite E in Hin;
         by apply elem_of_nil in Hin.
    unfold exec in *. erewrite mapDeletedService_nodes_present by done.
    match goal with |- context [mapDeletedService_nodes _ _ _ ?w0] => set (w1 := w0) end.
    assert (wf w1) as Hwf1 by (by eapply wf_insert_existing).
    destruct (IH w1 Hwf1) as (Hwf2 & H2). split; [done|].
    intros n' ns' pod. rewrite H2. subst w1.
    erewrite cleaned_insert_existing by done.
    rewrite !(cachedServices_Delete_step _ _ _ _ _ _ _ _ _ _ Hwf E).
    simpl. unfold has_bundle. rewrite E.
    destruct (decide (n' = node_Name node ∧ ns' = namespace)) as [[-> ->]|Hn].
    + rewrite (decide_True (P := _ ∈ _ :: _ ∧ _)) by (split; [left|done]).
      case_decide; set_solver.
    + apply decide_ext. rewrite elem_of_cons. tauto.
Qed.

(** *** Result of a reconciliation *)

Lemma reconcileKey_eval key w :
  eval (reconcileKey key) w = lookup_outcome key.
Proof.
  unfold reconcileKey, lookup_outcome.
  destruct (SplitMetaNamespaceKey key) as [[namespace name] [e|]]; [done|].
  destruct (endpointsLister m namespace name) as [ep|[msg|msg]]; simpl.
  - apply mapService_returns_nil.
  - rewrite eval_bind. unfold mapDeletedService.
    destruct (nodeLister m); [|done]. apply mapDeletedService_nodes_returns_nil.
  - by rewrite eval_bind.
Qed.

Lemma reconcileKey_queue key w :
  queue (exec (reconcileKey key) w) = queue w.
Proof.
  unfold reconcileKey.
  destruct (SplitMetaNamespaceKey key) as [[namespace name] [e|]]; [done|].
  destruct (endpointsLister m namespace name) as [ep|[msg|msg]];
    cbv beta iota zeta delta [IsNotFound].
  - apply mapService_queue.
  - rewrite exec_bind. by rewrite mapDeletedService_queue.
  - by rewrite exec_bind.
Qed.

(** C9, amended. [mapService] always returns nil. [reconcileKey] returns an
    error in three cases: the key does not split into namespace and name,
    the endpoints lookup fails with an error other than not-found, or the
    lookup reports not-found and the node listing of the cleanup fails. A
    not-found lookup runs [mapDeletedService]; a found object runs
    [mapService]. *)
Theorem reconcileKey_outcome key w :
  (∀ endpoints w0, eval (mapService endpoints) w0 = None) ∧
  eval (reconcileKey key) w =
    (let '(namespace, name, err) := SplitMetaNamespaceKey key in
     match err with
     | Some _ => err
     | None =>
         match endpointsLister m namespace name with
         | inl _ => None
         | inr (StatusNotFound _) =>
             match nodeLister m with
             | inr e => Some e
             | inl _ => None
             end
         | inr e => Some e
         end
     end) ∧
  exec (reconcileKey key) w =
    (let '(namespace, name, err) := SplitMetaNamespaceKey key in
     match err with
     | Some _ => w
     | None =>
         match endpointsLister m namespace name with
         | inl endpoints => exec (mapService endpoints) w
         | inr (StatusNotFound _) =>
             exec (log.Tracef
                     "Endpoints has been deleted %v. Attempting to cleanup metadata map" ;;
                   mapDeletedService namespace name) w
         | inr _ =>
             exec (log.Debugf "Unable to retrieve endpoints %v from store: %v") w
         end
     end).
Proof.
  split; [apply mapService_returns_nil|]. split; [apply reconcileKey_eval|].
  unfold reconcileKey.
  destruct (SplitMetaNamespaceKey key) as [[namespace name] [e|]]; [done|].
  destruct (endpointsLister m namespace name) as [ep|[msg|msg]];
    cbv beta iota zeta delta [IsNotFound]; [done|done|].
  by rewrite exec_bind.
Qed.

(** *** The worker step *)

Lemma queue_Get_head w key rest :
  q_items (queue w) = key :: rest →
  queue_Get w = (Some (key, false), set_queue (λ _, (workqueue.Get (queue w)).2) w).
Proof. intros H. unfold queue_Get, workqueue.Get. by rewrite H. Qed.

(** The queue after a worker step on the head key. *)
Lemma processNextWorkItem_run w key rest :
  q_items (queue w) = key :: rest →
  let q1 := (workqueue.Get (queue w)).2 in
  eval processNextWorkItem w = Some true ∧
  queue (exec processNextWorkItem w) =
    match lookup_outcome key with
    | None => workqueue.Done key (workqueue.Forget key q1)
    | Some _ =>
        if decide (workqueue.NumRequeues key q1 < maxRetries)
        then workqueue.Done key (workqueue.AddRateLimited key q1)
        else workqueue.Done key (workqueue.Forget key q1)
    end.
Proof.
  intros Hq q1. unfold processNextWorkItem, exec, eval.
  rewrite run_bind, (queue_Get_head _ _ _ Hq). fold q1. cbn [fst snd].
  rewrite run_bind.
  set (w1 := set_queue _ w).
  pose proof (reconcileKey_eval key w1) as He.
  pose proof (reconcileKey_queue key w1) as Hk.
  unfold exec, eval in He, Hk. rewrite He.
  destruct (lookup_outcome key) as [e|].
  - rewrite run_bind. unfold queue_NumRequeues at 1 2. simpl. rewrite Hk. simpl.
    case_decide; rewrite !run_bind; simpl; by rewrite Hk.
  - rewrite !run_bind. simpl. by rewrite Hk.
Qed.

Lemma Add_shuttingDown item q :
  q_shuttingDown (workqueue.Add item q) = q_shuttingDown q.
Proof. unfold workqueue.Add. by repeat case_match. Qed.

Lemma ready_shuttingDown item q :
  q_shuttingDown (workqueue.ready item q) = q_shuttingDown q.
Proof.
  unfold workqueue.ready. case_match; [|done]. by rewrite Add_shuttingDown.
Qed.

Lemma attempt_queue key w rest :
  q_items (queue w) = key :: rest →
  queue (exec (attempt key) w) =
  workqueue.ready key (queue (exec processNextWorkItem w)).
Proof.
  intros Hq. unfold attempt. rewrite !exec_bind. reflexivity.
Qed.

Lemma attempt_failing key (n : nat) w :
  is_Some (lookup_outcome key) →
  pending (queue w) key n →
  let w' := exec (attempt key) w in
  if decide (n < maxRetries)%nat then pending (queue w') key (S n)
  else idle (queue w') key.
Proof.
  intros [e He] (Hi & Hd & Hp & Hw & Hf & Hs) w'. subst w'.
  rewrite (attempt_queue key w [] Hi).
  destruct (processNextWorkItem_run w key [] Hi) as [_ ->].
  rewrite He. unfold workqueue.Get. rewrite Hi. cbn [snd].
  unfold workqueue.NumRequeues in *. cbn [q_failures]. rewrite Hf.
  destruct (decide (n < maxRetries)%nat) as [Hn|Hn].
  - unfold workqueue.ready, workqueue.Done, workqueue.AddRateLimited,
      workqueue.NumRequeues. simpl. rewrite Hs, Hf.
    destruct (decide (key ∈ q_dirty (queue w) ∖ {[key]})) as [?|_]; [set_solver|].
    destruct (decide (key ∈ {[key]} ∪ q_waiting (queue w))) as [_|?]; [|set_solver].
    unfold workqueue.Add. simpl.
    destruct (decide (key ∈ q_dirty (queue w) ∖ {[key]})) as [?|_]; [set_solver|].
    destruct (decide (key ∈ ({[key]} ∪ q_processing (queue w)) ∖ {[key]})) as [?|_];
      [set_solver|].
    repeat split; simpl; try done; try set_solver.
    unfold workqueue.NumRequeues. simpl. by rewrite lookup_insert_eq.
  - unfold workqueue.ready, workqueue.Done, workqueue.Forget. simpl.
    destruct (decide (key ∈ q_dirty (queue w) ∖ {[key]})) as [?|_]; [set_solver|].
    destruct (decide (key ∈ q_waiting (queue w))) as [?|_]; [done|].
    repeat split; simpl; try done; try set_solver.
    by rewrite lookup_delete_eq.
Qed.

(** X3. A key whose reconciliation always fails is attempted
    [maxRetries] + 1 times: after each of the first [maxRetries] failures it
    is queued again with one more failure counted, the next failure drops
    it, and the worker then finds nothing to do. *)
Lemma failing_key_attempts key w :
  is_Some (lookup_outcome key) →
  pending (queue w) key 0 →
  (∀ i : nat, (i ≤ maxRetries)%nat →
     pending (queue (Nat.iter i (exec (attempt key)) w)) key i) ∧
  idle (queue (Nat.iter (S maxRetries) (exec (attempt key)) w)) key ∧
  eval processNextWorkItem (Nat.iter (S maxRetries) (exec (attempt key)) w) = None.
Proof.
  intros He Hp.
  assert (∀ i : nat, (i ≤ maxRetries)%nat →
            pending (queue (Nat.iter i (exec (attempt key)) w)) key i) as Hall.
  { induction i as [|i IH]; intros Hi; [done|].
    rewrite Nat.iter_succ.
    generalize dependent (Nat.iter i (exec (attempt key)) w). intros wi IH.
    pose proof (attempt_failing key i wi He (IH (Nat.lt_le_incl _ _ Hi))) as Hstep.
    rewrite decide_True in Hstep by exact Hi. exact Hstep. }
  split; [exact Hall|].
  specialize (Hall maxRetries (le_n _)).
  rewrite Nat.iter_succ.
  generalize dependent (Nat.iter maxRetries (exec (attempt key)) w). intros w15 H15.
  pose proof (attempt_failing key maxRetries w15 He H15) as Hstep.
  rewrite decide_False in Hstep by apply Nat.lt_irrefl.
  split; [exact Hstep|].
  destruct Hstep as (Hi & _ & _ & _ & _).
  assert (q_shuttingDown (queue (exec (attempt key) w15)) = false) as Hs.
  { destruct H15 as (Hi0 & _ & _ & _ & _ & Hs0).
    rewrite (attempt_queue key _ [] Hi0).
    destruct (processNextWorkItem_run _ key [] Hi0) as [_ ->].
    unfold workqueue.Get. rewrite Hi0. cbn [snd].
    rewrite ready_shuttingDown. by repeat case_match. }
  generalize dependent (exec (attempt key) w15). intros w16 Hi Hs.
  unfold processNextWorkItem, eval. rewrite run_bind.
  unfold queue_Get, workqueue.Get. rewrite Hi, Hs. reflexivity.
Qed.

(** *** Event handlers *)

(** Add, update and delete notifications of an endpoints object queue its
    namespace/name key. *)
Lemma addEndpoints_enqueued endpoints w :
  eval (addEndpoints (ObjEndpoints endpoints)) w = Some tt ∧
  queue (exec (addEndpoints (ObjEndpoints endpoints)) w) =
  workqueue.Add (MetaNamespaceKeyFunc (ObjEndpoints endpoints)).1 (queue w).
Proof.
  unfold addEndpoints, enqueue, MetaNamespaceKeyFunc.
  rewrite eval_bind, exec_bind. by case_decide.
Qed.

Lemma updateEndpoints_enqueued old endpoints w :
  eval (updateEndpoints old (ObjEndpoints endpoints)) w = Some tt ∧
  queue (exec (updateEndpoints old (ObjEndpoints endpoints)) w) =
  workqueue.Add (MetaNamespaceKeyFunc (ObjEndpoints endpoints)).1 (queue w).
Proof.
  unfold updateEndpoints, enqueue, MetaNamespaceKeyFunc.
  rewrite eval_bind, exec_bind. by case_decide.
Qed.

Lemma deleteEndpoints_object_enqueued endpoints w :
  queue (exec (deleteEndpoints (ObjEndpoints endpoints)) w) =
  workqueue.Add (MetaNamespaceKeyFunc (ObjEndpoints endpoints)).1 (queue w).
Proof.
  unfold deleteEndpoints, enqueue, MetaNamespaceKeyFunc.
  rewrite exec_bind. by case_decide.
Qed.

(** A payload that is neither an endpoints object nor a tombstone holding
    one is logged and dropped. *)
Lemma deleteEndpoints_malformed_dropped obj w :
  (∀ endpoints, obj ≠ ObjEndpoints endpoints) →
  (∀ key endpoints, obj ≠ DeletedFinalStateUnknown key (ObjEndpoints endpoints)) →
  queue (exec (deleteEndpoints obj) w) = queue w ∧
  ∃ format, trace (exec (deleteEndpoints obj) w) = (trace w ++ [EvLog Debug format])%list.
Proof.
  intros H1 H2. destruct obj as [e|key [e| |]|]; try (by destruct (H1 e));
    try (by destruct (H2 key e)); (split; [done|]); eexists; reflexivity.
Qed.

(** C8. A delete notification carrying a tombstone that contains an
    endpoints object: [deleteEndpoints] recovers the object, logs its
    deletion, and hands the tombstone itself to [enqueue], whose key function
    has no key for it; the queue is left as it was. *)
Theorem deleteEndpoints_tombstone_not_enqueued key endpoints w :
  let obj := DeletedFinalStateUnknown key (ObjEndpoints endpoints) in
  queue (exec (deleteEndpoints obj) w) = queue w ∧
  trace (exec (deleteEndpoints obj) w) =
    (trace w ++ [EvLog Trace "Deleting endpoints %s";
                 EvLog Debug "Couldn't get key for object %v: %v"])%list.
Proof.
  simpl. unfold exec. simpl. by rewrite <- app_assoc.
Qed.

(** *** Read path *)

(** What the read path returns, from the cache. *)
Lemma GetPodMetadataNames_eval nodeName ns podName w :
  eval (GetPodMetadataNames nodeName ns podName) w =
  match store w !! BuildAgentKey metadataMapperCachePrefix nodeName with
  | None => ([], None)
  | Some (NotABundle _, _) =>
      ([], Some (ErrorString ("invalid cache format for the cacheKey: " ++
                              BuildAgentKey metadataMapperCachePrefix nodeName)))
  | Some (PtrBundle l, _) =>
      match lookup2 (Services (deref w l)) ns podName with
      | None => ([], None)
      | Some svcs => ((λ s, "kube_service:" ++ s) <$> elements svcs, None)
      end
  end.
Proof.
  unfold eval, GetPodMetadataNames, Cache_Get, ServicesForPod.
  rewrite !run_bind. simpl.
  destruct (store w !! BuildAgentKey metadataMapperCachePrefix nodeName) as [[[l|d] t]|]; simpl; try done.
  rewrite !run_bind. simpl. unfold ServicesMapper.Get, lookup2, deref. simpl.
  by destruct (_ ≫= _).
Qed.

(** C6. When the cache has nothing under the node's key, or the cached
    bundle has no entry for (namespace, pod), [GetPodMetadataNames] returns
    no data and a nil error. *)
Theorem GetPodMetadataNames_absent_is_not_an_error nodeName ns podName w :
  store w !! BuildAgentKey metadataMapperCachePrefix nodeName = None ∨
  (∃ l t, store w !! BuildAgentKey metadataMapperCachePrefix nodeName
            = Some (PtrBundle l, t) ∧
          lookup2 (Services (deref w l)) ns podName = None) →
  eval (GetPodMetadataNames nodeName ns podName) w = ([], None).
Proof.
  rewrite GetPodMetadataNames_eval.
  intros [->|(l & t & -> & ->)]; done.
Qed.

(** C7. When the cache holds under the node's key a value that is not a
    bundle, [GetPodMetadataNames] returns the "invalid cache format" error,
    which differs from what it returns when the entry is absent. *)
Theorem GetPodMetadataNames_invalid_cache_format nodeName ns podName w descr t :
  store w !! BuildAgentKey metadataMapperCachePrefix nodeName
    = Some (NotABundle descr, t) →
  eval (GetPodMetadataNames nodeName ns podName) w =
    ([], Some (ErrorString ("invalid cache format for the cacheKey: " ++
                            BuildAgentKey metadataMapperCachePrefix nodeName))) ∧
  ∀ w0, store w0 !! BuildAgentKey metadataMapperCachePrefix nodeName = None →
        eval (GetPodMetadataNames nodeName ns podName) w0 = ([], None) ∧
        eval (GetPodMetadataNames nodeName ns podName) w0 ≠
        eval (GetPodMetadataNames nodeName ns podName) w.
Proof.
  intros Hs. rewrite !GetPodMetadataNames_eval, Hs. split; [done|].
  intros w0 H0. rewrite !GetPodMetadataNames_eval, H0. done.
Qed.

(** C10. [GetPodMetadataNames] leaves the cache store, every bundle on the
    heap, the allocator and the work queue as they were; what it adds to the
    trace is logging and a read lock taken and released. *)
Theorem GetPodMetadataNames_frame nodeName ns podName w :
  let w' := exec (GetPodMetadataNames nodeName ns podName) w in
  store w' = store w ∧ heap w' = heap w ∧ next_loc w' = next_loc w ∧
  queue w' = queue w ∧
  ∃ evs, trace w' = (trace w ++ evs)%list ∧ Forall read_event evs.
Proof.
  unfold exec, GetPodMetadataNames, Cache_Get, ServicesForPod.
  rewrite !run_bind. simpl.
  destruct (store w !! BuildAgentKey metadataMapperCachePrefix nodeName) as [[[l|d] t]|]; simpl.
  - rewrite !run_bind. simpl.
    destruct (ServicesMapper.Get _ ns podName) as [svcs [|]]; simpl;
      repeat split; try done; rewrite <- !app_assoc; eexists; (split; [done|]);
      repeat constructor.
  - repeat split; try done. exists []. by rewrite app_nil_r.
  - repeat split; try done. eexists; split; [done|]. repeat constructor.
Qed.

(** *** Keys of objects *)

Lemma split_slash_free s : slash_free s = true → split_slash s = [s].
Proof.
  induction s as [|c s IH]; [done|]. simpl.
  destruct (Ascii.eqb c "/"%char); [done|]. simpl. intros H. by rewrite IH.
Qed.

Lemma split_slash_app a b :
  slash_free a = true →
  split_slash (a ++ String "/"%char b) = a :: split_slash b.
Proof.
  induction a as [|c a IH]; [done|]. simpl.
  destruct (Ascii.eqb c "/"%char); [done|]. simpl. intros H. by rewrite IH.
Qed.

Lemma SplitMetaNamespaceKey_of_key endpoints :
  slash_free (Namespace endpoints) = true →
  slash_free (Name endpoints) = true →
  SplitMetaNamespaceKey (MetaNamespaceKeyFunc (ObjEndpoints endpoints)).1 =
    (Namespace endpoints, Name endpoints, None).
Proof.
  intros Hns Hn. unfold SplitMetaNamespaceKey, MetaNamespaceKeyFunc.
  case_decide as Hlen; simpl.
  - change (Namespace endpoints ++ "/" ++ Name endpoints)
      with (Namespace endpoints ++ String "/"%char (Name endpoints)).
    by rewrite split_slash_app, split_slash_free.
  - rewrite split_slash_free by done.
    destruct (Namespace endpoints); [done|]. simpl in Hlen. lia.
Qed.

(** *** Computations that leave the queue alone *)

Lemma queue_blind_ret {A} (a : A) : queue_blind (mret a).
Proof. by intros f w. Qed.

Lemma queue_blind_bind {A B} (c : M A) (k : A → M B) :
  queue_blind c → (∀ a, queue_blind (k a)) → queue_blind (c ≫= k).
Proof.
  intros Hc Hk f w. rewrite !run_bind, Hc. simpl. by rewrite Hk.
Qed.

Lemma queue_blind_forM {A} (xs : list A) body :
  (∀ x, queue_blind (body x)) → queue_blind (forM_ xs body).
Proof.
  intros Hb. induction xs as [|x xs IH]; simpl.
  - apply queue_blind_ret.
  - apply queue_blind_bind; [apply Hb|]. intros _. apply IH.
Qed.

Lemma queue_blind_emit e : queue_blind (emit e).
Proof. by intros f w. Qed.

Lemma queue_blind_getMetadataMapBundle n : queue_blind (getMetadataMapBundle n).
Proof.
  unfold getMetadataMapBundle. apply queue_blind_bind; [by intros f w|].
  intros [[l|d]|]; apply queue_blind_ret.
Qed.

Lemma queue_blind_mapService endpoints : queue_blind (mapService endpoints).
Proof.
  unfold mapService. apply queue_blind_bind; [|intros _; apply queue_blind_ret].
  apply queue_blind_forM. intros [n pods]. unfold mapService_node.
  apply queue_blind_bind; [apply queue_blind_getMetadataMapBundle|]. intros r.
  apply queue_blind_bind.
  { destruct r; [apply queue_blind_ret|].
    apply queue_blind_bind; [apply queue_blind_emit|]. by intros _ f w. }
  intros l. apply queue_blind_bind; [apply queue_blind_emit|]. intros _.
  apply queue_blind_bind.
  { apply queue_blind_forM. intros [ns pod]. by intros f w. }
  intros _. apply queue_blind_bind; [apply queue_blind_emit|]. intros _.
  by intros f w.
Qed.

Lemma queue_blind_mapDeletedService_nodes namespace svc nodes :
  queue_blind (mapDeletedService_nodes namespace svc nodes).
Proof.
  induction nodes as [|node rest IH]; simpl; [apply queue_blind_ret|].
  apply queue_blind_bind; [apply queue_blind_getMetadataMapBundle|].
  intros [l|e]; [|apply queue_blind_ret].
  apply queue_blind_bind; [apply queue_blind_emit|]. intros _.
  apply queue_blind_bind; [by intros f w|]. intros _.
  apply queue_blind_bind; [apply queue_blind_emit|]. intros _.
  apply queue_blind_bind; [by intros f w|]. intros _. apply IH.
Qed.

Lemma queue_blind_reconcileKey key : queue_blind (reconcileKey key).
Proof.
  unfold reconcileKey.
  destruct (SplitMetaNamespaceKey key) as [[namespace name] [e|]];
    [apply queue_blind_ret|].
  destruct (endpointsLister m namespace name) as [ep|[msg|msg]];
    cbv beta iota zeta delta [IsNotFound].
  - apply queue_blind_mapService.
  - apply queue_blind_bind; [apply queue_blind_emit|]. intros _.
    unfold mapDeletedService. destruct (nodeLister m); [|apply queue_blind_ret].
    apply queue_blind_mapDeletedService_nodes.
  - apply queue_blind_bind; [apply queue_blind_emit|]. intros _.
    apply queue_blind_ret.
Qed.

(** *** The worker step and the cache *)

Lemma same_cache_refl w : same_cache w w.
Proof. by repeat split. Qed.

Lemma same_cache_trans w1 w2 w3 :
  same_cache w1 w2 → same_cache w2 w3 → same_cache w1 w3.
Proof. intros (? & ? & ?) (? & ? & ?). repeat split; congruence. Qed.

Lemma cachedServices_same_cache w1 w2 n ns pod :
  same_cache w1 w2 → cachedServices w1 n ns pod = cachedServices w2 n ns pod.
Proof.
  intros (Hs & Hh & _). unfold cachedServices, deref. by rewrite Hs, Hh.
Qed.

Lemma processNextWorkItem_cache w key rest :
  q_items (queue w) = key :: rest →
  same_cache (exec processNextWorkItem w) (exec (reconcileKey key) w).
Proof.
  intros Hq. unfold processNextWorkItem, exec.
  rewrite run_bind, (queue_Get_head _ _ _ Hq). cbn [fst snd].
  rewrite run_bind, queue_blind_reconcileKey. cbn [fst snd].
  destruct (reconcileKey key w) as [[e|] w1]; cbn [fst snd].
  - rewrite run_bind. unfold queue_NumRequeues, gets. cbn [fst snd].
    case_decide; by repeat split.
  - by repeat split.
Qed.

Lemma processNextWorkItem_queue_shape w key rest :
  q_items (queue w) = key :: rest →
  let q := queue w in
  let q' := queue (exec processNextWorkItem w) in
  q_items q' = rest ∧ q_dirty q' = q_dirty q ∖ {[key]} ∧
  q_processing q' = q_processing q ∖ {[key]} ∧
  q_shuttingDown q' = q_shuttingDown q.
Proof.
  intros Hq. cbv zeta.
  destruct (processNextWorkItem_run w key rest Hq) as [_ ->].
  unfold workqueue.Get. rewrite Hq. cbn [snd].
  assert (∀ x y : list string,
            (if decide (key ∈ q_dirty (queue w) ∖ {[key]}) then x else y) = y) as Hnd.
  { intros x y. rewrite decide_False; [done|set_solver]. }
  assert (({[key]} ∪ q_processing (queue w)) ∖ {[key]}
          = q_processing (queue w) ∖ {[key]}) as Hp by set_solver.
  destruct (lookup_outcome key);
    [destruct (decide (workqueue.NumRequeues key _ < maxRetries)%nat)|];
    unfold workqueue.Done, workqueue.Forget, workqueue.AddRateLimited; simpl;
    by rewrite Hnd, Hp.
Qed.

Lemma processNextWorkItem_empty w :
  q_items (queue w) = [] →
  processNextWorkItem w =
    (if q_shuttingDown (queue w) then Some false else None, w).
Proof.
  intros Hq. unfold processNextWorkItem. rewrite run_bind.
  unfold queue_Get, workqueue.Get. rewrite Hq.
  destruct w as [st hp nl q tr]. simpl in *. by destruct (q_shuttingDown q).
Qed.

(** *** Retries *)

Lemma exec_run_step_worker w :
  exec (run_step WorkerStep) w = exec processNextWorkItem w.
Proof. unfold run_step. by rewrite exec_bind. Qed.

Lemma gone_Add key k q : k ≠ key → gone q key → gone (workqueue.Add k q) key.
Proof.
  intros Hk (Hi & Hd & Hp & Hw & Hf). unfold workqueue.Add.
  destruct (q_shuttingDown q); [done|].
  destruct (decide (k ∈ q_dirty q)); [done|].
  destruct (decide (k ∈ q_processing q)); repeat split; simpl; try done;
    set_solver.
Qed.

Lemma gone_ready key k q : gone q key → gone (workqueue.ready k q) key.
Proof.
  intros H. unfold workqueue.ready.
  destruct (decide (k ∈ q_waiting q)) as [Hin|]; [|done].
  destruct H as (Hi & Hd & Hp & Hw & Hf).
  apply gone_Add; [by intros ->|].
  repeat split; simpl; try done. set_solver.
Qed.

Lemma gone_worker_step key w :
  gone (queue w) key → gone (queue (exec processNextWorkItem w)) key.
Proof.
  intros (Hi & Hd & Hp & Hw & Hf).
  destruct (q_items (queue w)) as [|k rest] eqn:Hq.
  { unfold exec. rewrite (processNextWorkItem_empty w Hq). cbn [snd].
    repeat split; try done. by rewrite Hq. }
  assert (k ≠ key) as Hk by (intros ->; apply Hi; by left).
  assert (key ∉ rest) as Hr by (intros ?; apply Hi; by right).
  destruct (processNextWorkItem_queue_shape w k rest Hq) as (Hi' & Hd' & Hp' & _).
  destruct (processNextWorkItem_run w k rest Hq) as [_ Hq'].
  split; [by rewrite Hi'|]. split; [rewrite Hd'; set_solver|].
  split; [rewrite Hp'; set_solver|].
  rewrite Hq'. clear Hq'. unfold workqueue.Get. rewrite Hq. cbn [snd].
  destruct (lookup_outcome k); [case_decide|];
    unfold workqueue.Done, workqueue.Forget, workqueue.AddRateLimited; simpl.
  - split; [|by rewrite lookup_insert_ne].
    destruct (q_shuttingDown (queue w)); [done|].
    rewrite elem_of_union, elem_of_singleton. intros [?|?]; [by apply Hk|done].
  - split; [done|]. by rewrite lookup_delete_ne.
  - split; [done|]. by rewrite lookup_delete_ne.
Qed.

(** Without a new notification of it, a key the queue holds nothing of
    never comes back. *)
Lemma gone_run_steps key steps w :
  Notified key ∉ steps →
  gone (queue w) key → gone (queue (exec (run_steps steps) w)) key.
Proof.
  revert w. induction steps as [|s steps IH]; intros w Hn Hg; [done|].
  unfold run_steps. rewrite exec_forM_cons. apply IH; [set_solver|].
  destruct s as [|k|k|].
  - rewrite exec_run_step_worker. by apply gone_worker_step.
  - by apply gone_ready.
  - apply gone_Add; [|done]. intros ->. apply Hn. by left.
  - destruct Hg as (? & ? & ? & ? & ?). by repeat split.
Qed.

(** A queue that is shutting down takes no key: what is not queued stays
    out, whatever happens. *)
Lemma shutdown_run_steps key steps w :
  q_shuttingDown (queue w) = true →
  key ∉ q_items (queue w) →
  key ∉ q_items (queue (exec (run_steps steps) w)).
Proof.
  revert w. induction steps as [|s steps IH]; intros w Hs Hi; [done|].
  unfold run_steps. rewrite exec_forM_cons.
  assert (q_shuttingDown (queue (exec (run_step s) w)) = true ∧
          key ∉ q_items (queue (exec (run_step s) w))) as [Hs' Hi'];
    [|by apply IH].
  destruct s as [|k|k|].
  - rewrite exec_run_step_worker.
    destruct (q_items (queue w)) as [|k rest] eqn:Hq.
    + unfold exec. rewrite (processNextWorkItem_empty w Hq). cbn [snd].
      by rewrite Hq.
    + destruct (processNextWorkItem_queue_shape w k rest Hq) as (-> & _ & _ & ->).
      split; [done|]. intros ?. apply Hi. by right.
  - change (queue (exec (run_step (TimerFires k)) w))
      with (workqueue.ready k (queue w)).
    rewrite ready_shuttingDown. split; [done|].
    unfold workqueue.ready. destruct (decide (k ∈ q_waiting (queue w))); [|done].
    unfold workqueue.Add. simpl. by rewrite Hs.
  - change (queue (exec (run_step (Notified k)) w))
      with (workqueue.Add k (queue w)).
    unfold workqueue.Add. by rewrite Hs.
  - done.
Qed.

(** C3. A worker step on key [key] with [n] failures counted returns true,
    takes the key off the queue and, through the deferred [Done], releases
    it from processing; no other key's count changes. On reconciliation
    failure the key is handed to [AddRateLimited] (failure counted) exactly
    when [n] is below [maxRetries] = 15: unless the queue is shutting down
    this parks the key, and the end of its backoff queues it again with
    [n] + 1 failures. On a queue that is shutting down the key is counted
    but not parked and is never queued again. On success and at the ceiling
    the counter is cleared and this step parks nothing: when no delayed add
    of the key was pending the queue holds nothing of it afterwards, and
    without a new notification it is never handed to a worker again. *)
Theorem processNextWorkItem_retry_policy w key rest :
  q_items (queue w) = key :: rest →
  let q := queue w in
  let n := workqueue.NumRequeues key q in
  let w' := exec processNextWorkItem w in
  let q' := queue w' in
  let failed := is_Some (eval (reconcileKey key) (exec queue_Get w)) in
  maxRetries = 15 ∧
  eval processNextWorkItem w = Some true ∧
  q_items q' = rest ∧
  q_dirty q' = q_dirty q ∖ {[key]} ∧
  q_processing q' = q_processing q ∖ {[key]} ∧
  q_shuttingDown q' = q_shuttingDown q ∧
  (∀ k, k ≠ key → q_failures q' !! k = q_failures q !! k) ∧
  (¬ failed → q_failures q' !! key = None ∧ q_waiting q' = q_waiting q) ∧
  (failed → (q_failures q' !! key = Some (S n) ↔ (n < maxRetries)%nat)) ∧
  (failed → (n < maxRetries)%nat →
     q_waiting q' = if q_shuttingDown q then q_waiting q else {[key]} ∪ q_waiting q) ∧
  (failed → ¬ (n < maxRetries)%nat →
     q_failures q' !! key = None ∧ q_waiting q' = q_waiting q) ∧
  (failed → (n < maxRetries)%nat → q_shuttingDown q = false →
     q_items (workqueue.ready key q') = (rest ++ [key])%list ∧
     workqueue.NumRequeues key (workqueue.ready key q') = S n) ∧
  (q_shuttingDown q = true → key ∉ rest →
     ∀ steps, key ∉ q_items (queue (exec (run_steps steps) w'))) ∧
  (¬ (failed ∧ (n < maxRetries)%nat) → key ∉ rest → key ∉ q_waiting q →
     ∀ steps, Notified key ∉ steps →
       gone (queue (exec (run_steps steps) w')) key).
Proof.
  intros Hq. cbv zeta. split; [done|].
  destruct (processNextWorkItem_run w key rest Hq) as [Hr Hq'].
  destruct (processNextWorkItem_queue_shape w key rest Hq) as (Hi & Hd & Hp & Hs).
  split; [done|]. split; [done|]. split; [done|]. split; [done|]. split; [done|].
  assert (key ∉ q_dirty (queue (exec processNextWorkItem w))) as Hnd'
    by (rewrite Hd; set_solver).
  assert (key ∉ q_processing (queue (exec processNextWorkItem w))) as Hnp'
    by (rewrite Hp; set_solver).
  assert (q_shuttingDown (queue w) = true → key ∉ rest →
          ∀ steps, key ∉ q_items (queue (exec (run_steps steps)
                                           (exec processNextWorkItem w)))) as Hdown.
  { intros Hsd Hnr steps. apply shutdown_run_steps; [by rewrite Hs|by rewrite Hi]. }
  assert (q_failures (queue (exec processNextWorkItem w)) !! key = None →
          q_waiting (queue (exec processNextWorkItem w)) = q_waiting (queue w) →
          key ∉ rest → key ∉ q_waiting (queue w) →
          ∀ steps, Notified key ∉ steps →
            gone (queue (exec (run_steps steps) (exec processNextWorkItem w))) key)
    as Hgone.
  { intros Hf Hw Hnr Hnw steps Hsteps. apply gone_run_steps; [done|].
    split; [by rewrite Hi|]. split; [done|]. split; [done|].
    split; [by rewrite Hw|done]. }
  revert Hgone Hnd' Hnp'. rewrite Hq'. clear Hq' Hr Hi Hd Hp Hs.
  rewrite reconcileKey_eval.
  unfold workqueue.Get. rewrite Hq. cbn [snd].
  set (q := queue w). set (n := workqueue.NumRequeues key q).
  assert (∀ x y : list string,
            (if decide (key ∈ q_dirty q ∖ {[key]}) then x else y) = y) as Hnd.
  { intros x y. rewrite decide_False; [done|set_solver]. }
  assert (workqueue.NumRequeues key
            (mkQueue rest (q_dirty q ∖ {[key]}) ({[key]} ∪ q_processing q)
                     (q_waiting q) (q_failures q) (q_shuttingDown q)) = n) as Hn by done.
  rewrite Hn.
  destruct (lookup_outcome key) as [e|].
  - destruct (decide (n < maxRetries)%nat) as [Hlt|Hge].
    + unfold workqueue.Done, workqueue.AddRateLimited. simpl. rewrite Hnd, Hn.
      rewrite lookup_insert_eq. intros Hgone Hnd' Hnp'.
      split; [intros k Hk; by rewrite lookup_insert_ne|].
      split; [intros []; eauto|].
      split; [intros _; split; done|]. split; [done|].
      split; [intros _ Hc; by destruct Hc|].
      split; [|split; [done|]].
      * intros _ _ Hsd. rewrite Hsd.
        unfold workqueue.ready. simpl.
        rewrite decide_True by set_solver.
        unfold workqueue.Add. simpl.
        rewrite decide_False by set_solver. rewrite decide_False by set_solver.
        split; [done|]. unfold workqueue.NumRequeues. simpl.
        by rewrite lookup_insert_eq.
      * intros Hc. destruct Hc. split; [eauto|done].
    + unfold workqueue.Done, workqueue.Forget. simpl. rewrite Hnd.
      rewrite lookup_delete_eq. intros Hgone Hnd' Hnp'.
      split; [intros k Hk; by rewrite lookup_delete_ne|].
      split; [done|].
      split; [intros _; split; [done|intros ?; by destruct Hge]|].
      split; [intros _ ?; by destruct Hge|]. split; [done|].
      split; [intros _ ?; by destruct Hge|]. split; [done|].
      intros _. by apply Hgone.
  - unfold workqueue.Done, workqueue.Forget. simpl. rewrite Hnd.
    rewrite lookup_delete_eq. intros Hgone Hnd' Hnp'.
    split; [intros k Hk; by rewrite lookup_delete_ne|].
    split; [done|].
    split; [intros Hc; destruct Hc as [x Hx]; discriminate|].
    split; [intros Hc; destruct Hc as [x Hx]; discriminate|].
    split; [intros Hc; destruct Hc as [x Hx]; discriminate|].
    split; [intros Hc; destruct Hc as [x Hx]; discriminate|].
    split; [done|]. intros _. by apply Hgone.
Qed.

(** *** What a reconciliation writes *)

Lemma foldl_nodeToPods_step_is_Some l acc n :
  is_Some (foldl nodeToPods_step acc l !! n) ↔
  is_Some (acc !! n) ∨ ∃ a ns p, a ∈ l ∧ address_entry a = Some (n, ns, p).
Proof.
  induction l as [|a l IH] using rev_ind.
  - simpl. split; [auto|]. intros [?|(a & ns & p & Ha%elem_of_nil & _)]; done.
  - rewrite foldl_app. simpl. rewrite nodeToPods_step_entry.
    destruct (address_entry a) as [[[n' ns'] p']|] eqn:Ea.
    + rewrite lookup_insert. case_decide as Hn.
      * subst n'. split; [|by eauto]. intros _. right.
        exists a, ns', p'. split; [|done]. apply elem_of_app. right. by left.
      * rewrite IH. split.
        -- intros [?|(b & ns & p & Hb & Heb)]; [by left|]. right.
           exists b, ns, p. split; [|done]. apply elem_of_app. by left.
        -- intros [?|(b & ns & p & [Hb|Hb%list_elem_of_singleton]%elem_of_app & Heb)];
             [by left| |].
           ++ right. by exists b, ns, p.
           ++ subst b. rewrite Ea in Heb. by injection Heb as -> _ _.
    + rewrite IH. split.
      * intros [?|(b & ns & p & Hb & Heb)]; [by left|]. right.
        exists b, ns, p. split; [|done]. apply elem_of_app. by left.
      * intros [?|(b & ns & p & [Hb|Hb%list_elem_of_singleton]%elem_of_app & Heb)];
          [by left| |].
        -- right. by exists b, ns, p.
        -- subst b. by rewrite Ea in Heb.
Qed.

Lemma build_nodeToPods_is_Some endpoints n :
  is_Some (build_nodeToPods endpoints !! n) ↔ on_node endpoints n.
Proof.
  rewrite build_nodeToPods_flat, foldl_nodeToPods_step_is_Some, lookup_empty.
  unfold on_node. split; [|by right]. intros [[? [=]]|?]; done.
Qed.

Lemma mapService_node_store svc n pods w :
  ∃ l, store (exec (mapService_node svc (n, pods)) w) =
       <[BuildAgentKey metadataMapperCachePrefix n := (PtrBundle l, metadataMapExpire)]>
         (store w) ∧
       ∀ l0 t0, store w !! BuildAgentKey metadataMapperCachePrefix n
                  = Some (PtrBundle l0, t0) → l = l0.
Proof.
  destruct (store w !! BuildAgentKey metadataMapperCachePrefix n)
    as [[[l|d] t0]|] eqn:E.
  - destruct (mapService_node_existing svc n pods w l t0 E) as (h & tr & -> & _).
    exists l. split; [done|]. by intros l0 t1 [= ->].
  - destruct (mapService_node_fresh svc n pods w) as (h & tr & -> & _);
      [intros l t1; by rewrite E|]. by eexists.
  - destruct (mapService_node_fresh svc n pods w) as (h & tr & -> & _);
      [intros l t1; by rewrite E|]. by eexists.
Qed.

Lemma exec_forM_snoc {A} (xs : list A) (x : A) body w :
  exec (forM_ (xs ++ [x]) body) w = exec (body x) (exec (forM_ xs body) w).
Proof.
  revert w. induction xs as [|y ys IH]; intros w.
  - simpl. by rewrite exec_bind.
  - change (((y :: ys) ++ [x])%list) with (y :: (ys ++ [x])%list).
    by rewrite !exec_forM_cons, IH.
Qed.

Lemma forM_mapService_node_store svc entries w k :
  let w' := exec (forM_ entries (mapService_node svc)) w in
  (∀ n pods, (n, pods) ∈ entries →
     ∃ l, store w' !! BuildAgentKey metadataMapperCachePrefix n
            = Some (PtrBundle l, metadataMapExpire)) ∧
  ((∀ n pods, (n, pods) ∈ entries → k ≠ BuildAgentKey metadataMapperCachePrefix n) →
   store w' !! k = store w !! k) ∧
  (∀ l t, store w !! k = Some (PtrBundle l, t) →
     ∃ t', store w' !! k = Some (PtrBundle l, t')).
Proof.
  cbv zeta. induction entries as [|[n0 pods0] entries IH] using rev_ind.
  - split; [by intros n pods ?%elem_of_nil|]. split; [done|]. by eauto.
  - rewrite exec_forM_snoc.
    destruct (mapService_node_store svc n0 pods0
                (exec (forM_ entries (mapService_node svc)) w)) as (l0 & -> & Hl0).
    destruct IH as (IH1 & IH3 & IH4).
    split; [|split].
    + intros n pods [Hin|Hin%list_elem_of_singleton]%elem_of_app.
      * rewrite lookup_insert. case_decide; [by eexists|]. by eapply IH1.
      * injection Hin as -> ->. rewrite lookup_insert_eq. by eexists.
    + intros Hk. rewrite lookup_insert_ne.
      * apply IH3. intros n pods Hin. apply (Hk n pods), elem_of_app. by left.
      * intros Heq. apply (Hk n0 pods0); [|done]. apply elem_of_app. right. by left.
    + intros l t Hk. destruct (IH4 l t Hk) as [t' Ht'].
      rewrite lookup_insert. case_decide as Hd; [|by eauto].
      subst k. rewrite (Hl0 _ _ Ht'). by eauto.
Qed.

(** X8. [mapService] writes the cache exactly under the keys of the nodes
    that have a valid address in the object: each of these keys ends up
    holding a bundle with the time to live [metadataMapExpire], every other
    key keeps its entry, time to live included, and a key that held a bundle
    holds the same bundle afterwards (bundles are updated in place, never
    replaced). *)
Theorem mapService_store_frame endpoints w :
  let w' := exec (mapService endpoints) w in
  (∀ n, on_node endpoints n →
     ∃ l, store w' !! BuildAgentKey metadataMapperCachePrefix n
            = Some (PtrBundle l, metadataMapExpire)) ∧
  (∀ k, (∀ n, on_node endpoints n → k ≠ BuildAgentKey metadataMapperCachePrefix n) →
     store w' !! k = store w !! k) ∧
  (∀ k l t, store w !! k = Some (PtrBundle l, t) →
     ∃ t', store w' !! k = Some (PtrBundle l, t')).
Proof.
  cbv zeta. unfold mapService. rewrite exec_bind.
  change (exec (mret None) ?w0) with w0. split; [|split].
  - intros n [pods Hn]%build_nodeToPods_is_Some.
    eapply (proj1 (forM_mapService_node_store _ _ w "")).
    by apply elem_of_map_to_list.
  - intros k Hk. apply (forM_mapService_node_store _ _ w k).
    intros n pods Hin%elem_of_map_to_list. apply Hk, build_nodeToPods_is_Some.
    by eexists.
  - intros k. apply (forM_mapService_node_store _ _ w k).
Qed.

(** X9. An object without a valid address (no subsets, no addresses, or
    only addresses that the filter skips) makes [mapService] return nil
    without any effect: no bundle is created, no cache entry refreshed,
    nothing logged. *)
Theorem mapService_without_valid_address endpoints w :
  Forall (λ a, address_entry a = None) (all_addresses endpoints) →
  mapService endpoints w = (None, w).
Proof.
  intros Hall. unfold mapService.
  assert (build_nodeToPods endpoints = ∅) as ->.
  { rewrite build_nodeToPods_flat.
    generalize (∅ : gmap string (gmap string string)).
    induction Hall as [|a l Ha _ IH]; intros acc; [done|].
    simpl. by rewrite nodeToPods_step_invalid. }
  by rewrite map_to_list_empty.
Qed.

(** *** Computations determined by the cache *)

Lemma cache_fn_ret {A} (a : A) : cache_fn (mret a).
Proof. by intros w1 w2 H. Qed.

Lemma cache_fn_bind {A B} (c : M A) (k : A → M B) :
  cache_fn c → (∀ a, cache_fn (k a)) → cache_fn (c ≫= k).
Proof.
  intros Hc Hk w1 w2 H. rewrite !run_bind.
  destruct (Hc w1 w2 H) as [-> H']. by apply Hk.
Qed.

Lemma cache_fn_forM {A} (xs : list A) body :
  (∀ x, cache_fn (body x)) → cache_fn (forM_ xs body).
Proof.
  intros Hb. induction xs as [|x xs IH]; simpl.
  - apply cache_fn_ret.
  - apply cache_fn_bind; [apply Hb|]. intros _. apply IH.
Qed.

Lemma cache_fn_emit e : cache_fn (emit e).
Proof. by intros w1 w2 H. Qed.

Lemma cache_fn_Cache_Set k obj ttl : cache_fn (Cache_Set k obj ttl).
Proof.
  intros w1 w2 (Hs & Hh & Hn). split; [done|]. repeat split; simpl; congruence.
Qed.

Lemma cache_fn_getMetadataMapBundle n : cache_fn (getMetadataMapBundle n).
Proof.
  unfold getMetadataMapBundle. apply cache_fn_bind.
  - intros w1 w2 H. split; [|done]. unfold Cache_Get, gets. simpl.
    by destruct H as (-> & _).
  - intros [[l|d]|]; apply cache_fn_ret.
Qed.

Lemma cache_fn_newMetadataMapperBundle : cache_fn newMetadataMapperBundle.
Proof.
  intros w1 w2 (Hs & Hh & Hn). unfold newMetadataMapperBundle. simpl.
  split; [done|]. repeat split; simpl; congruence.
Qed.

Lemma cache_fn_Services_Set l ns pod svc : cache_fn (Services_Set l ns pod svc).
Proof.
  intros w1 w2 (Hs & Hh & Hn). split; [done|]. unfold Services_Set, modify, deref.
  repeat split; simpl; congruence.
Qed.

Lemma cache_fn_Services_Delete l ns svc : cache_fn (Services_Delete l ns svc).
Proof.
  intros w1 w2 (Hs & Hh & Hn). split; [done|]. unfold Services_Delete, modify, deref.
  repeat split; simpl; congruence.
Qed.

Lemma cache_fn_mapService endpoints : cache_fn (mapService endpoints).
Proof.
  unfold mapService. apply cache_fn_bind; [|intros _; apply cache_fn_ret].
  apply cache_fn_forM. intros [n pods]. unfold mapService_node.
  apply cache_fn_bind; [apply cache_fn_getMetadataMapBundle|]. intros r.
  apply cache_fn_bind.
  { destruct r; [apply cache_fn_ret|].
    apply cache_fn_bind; [apply cache_fn_emit|]. intros _.
    apply cache_fn_newMetadataMapperBundle. }
  intros l. apply cache_fn_bind; [apply cache_fn_emit|]. intros _.
  apply cache_fn_bind.
  { apply cache_fn_forM. intros [ns pod]. apply cache_fn_Services_Set. }
  intros _. apply cache_fn_bind; [apply cache_fn_emit|]. intros _.
  apply cache_fn_Cache_Set.
Qed.

Lemma cache_fn_mapDeletedService_nodes namespace svc nodes :
  cache_fn (mapDeletedService_nodes namespace svc nodes).
Proof.
  induction nodes as [|node rest IH]; simpl; [apply cache_fn_ret|].
  apply cache_fn_bind; [apply cache_fn_getMetadataMapBundle|].
  intros [l|e]; [|apply cache_fn_ret].
  apply cache_fn_bind; [apply cache_fn_emit|]. intros _.
  apply cache_fn_bind; [apply cache_fn_Services_Delete|]. intros _.
  apply cache_fn_bind; [apply cache_fn_emit|]. intros _.
  apply cache_fn_bind; [apply cache_fn_Cache_Set|]. intros _. apply IH.
Qed.

Lemma cache_fn_mapDeletedService namespace svc :
  cache_fn (mapDeletedService namespace svc).
Proof.
  unfold mapDeletedService. destruct (nodeLister m); [|apply cache_fn_ret].
  apply cache_fn_mapDeletedService_nodes.
Qed.

Lemma wf_same_cache w1 w2 : same_cache w1 w2 → wf w1 → wf w2.
Proof.
  intros (Hs & _ & Hn) [Hi Hf]. split.
  - intros *. rewrite <- Hs. apply Hi.
  - intros *. rewrite <- Hs, <- Hn. apply Hf.
Qed.

(** *** Repeated, reordered and superseded reconciliations *)

(** X5. Reconciling the same object again, as the periodic resync does,
    changes no cached service set. *)
Theorem mapService_idempotent endpoints w n ns pod :
  wf w →
  cachedServices (exec (mapService endpoints) (exec (mapService endpoints) w)) n ns pod =
  cachedServices (exec (mapService endpoints) w) n ns pod.
Proof.
  intros Hwf. destruct (mapService_spec endpoints w Hwf) as (Hwf1 & _ & H1).
  destruct (mapService_spec endpoints _ Hwf1) as (_ & _ & ->).
  rewrite H1. case_decide; set_solver.
Qed.

(** X6. A reconciliation only adds: the name an object gave to a pod stays
    in the pod's set whatever is reconciled afterwards, a later version of
    the same object that no longer lists the pod included. *)
Theorem mapService_never_removes endpoints later w n ns pod :
  wf w →
  retained_pod endpoints n ns = Some pod →
  cachedServices w n ns pod ∪ {[Name endpoints]} ⊆
  cachedServices (exec (reconcile_all (endpoints :: later)) w) n ns pod.
Proof.
  intros Hwf Hr.
  destruct (reconcile_all_spec (endpoints :: later) w n ns pod Hwf) as [_ ->].
  unfold names_retaining. rewrite filter_cons, decide_True by done.
  simpl. set_solver.
Qed.

(** X7. The order in which objects are reconciled does not show in the
    cached service sets. *)
Theorem reconcile_all_order_irrelevant eps eps' w n ns pod :
  wf w → eps ≡ₚ eps' →
  cachedServices (exec (reconcile_all eps) w) n ns pod =
  cachedServices (exec (reconcile_all eps') w) n ns pod.
Proof.
  intros Hwf Hp.
  destruct (reconcile_all_spec eps w n ns pod Hwf) as [_ ->].
  destruct (reconcile_all_spec eps' w n ns pod Hwf) as [_ ->].
  unfold names_retaining. by rewrite Hp.
Qed.

Lemma allocated_same_cache w1 w2 : same_cache w1 w2 → allocated w1 → allocated w2.
Proof. intros (Hs & Hh & _) Ha k l t. rewrite <- Hs, <- Hh. apply Ha. Qed.

Lemma forM_Services_Set_heap l svc kvs w l' :
  is_Some (heap w !! l') →
  is_Some (heap (exec (forM_ kvs (λ '(ns, pod), Services_Set l ns pod svc)) w) !! l').
Proof.
  revert w. induction kvs as [|[ns pod] kvs IH]; intros w H; [done|].
  rewrite exec_forM_cons. apply IH.
  unfold exec, Services_Set, modify, set_heap. simpl.
  rewrite lookup_insert. by case_decide.
Qed.

Lemma mapService_node_allocated svc entry w :
  allocated w → allocated (exec (mapService_node svc entry) w).
Proof.
  intros Ha. destruct entry as [n pods].
  unfold exec, mapService_node, getMetadataMapBundle, Cache_Get.
  rewrite !run_bind. simpl.
  destruct (store w !! BuildAgentKey metadataMapperCachePrefix n)
    as [[[l|d] t0]|] eqn:E; simpl; rewrite ?run_bind; simpl.
  all: match goal with |- context [forM_ ?kvs ?f ?w0] =>
         match f with context [Services_Set ?l0] =>
           pose proof (λ l', forM_Services_Set_heap l0 svc kvs w0 l') as Hdom;
           destruct (forM_Services_Set l0 svc kvs w0) as (h & Hrun & _ & _)
         end end.
  all: unfold exec in Hdom; rewrite Hrun in Hdom |- *; simpl in Hdom |- *.
  all: intros k l1 t; simpl; rewrite lookup_insert; case_decide as Hk.
  all: try (intros [= <- <-]; apply Hdom).
  all: try (intros Hk1; apply Hdom).
  - by eapply Ha.
  - by eapply Ha.
  - by rewrite lookup_insert_eq.
  - rewrite lookup_insert. case_decide; [done|]. by eapply Ha.
  - by rewrite lookup_insert_eq.
  - rewrite lookup_insert. case_decide; [done|]. by eapply Ha.
Qed.

Lemma mapService_allocated endpoints w :
  allocated w → allocated (exec (mapService endpoints) w).
Proof.
  unfold mapService. rewrite exec_bind. change (exec (mret None) ?w0) with w0.
  generalize (map_to_list (build_nodeToPods endpoints)). intros entries.
  revert w. induction entries as [|e entries IH]; intros w Ha; [done|].
  rewrite exec_forM_cons. by apply IH, mapService_node_allocated.
Qed.

Lemma mapDeletedService_nodes_allocated namespace svc nodes w :
  allocated w → allocated (exec (mapDeletedService_nodes namespace svc nodes) w).
Proof.
  revert w. induction nodes as [|node rest IH]; intros w Ha; [done|].
  destruct (store w !! BuildAgentKey metadataMapperCachePrefix (node_Name node))
    as [[[l|d] t]|] eqn:E.
  2,3: unfold exec; by rewrite mapDeletedService_nodes_missing
         by (intros l0 t1; rewrite E; done).
  unfold exec in *. erewrite mapDeletedService_nodes_present by done.
  apply IH. intros k l1 t1. simpl.
  rewrite lookup_insert. case_decide as Hk.
  - intros [= <- <-]. by rewrite lookup_insert_eq.
  - intros Hk1. rewrite lookup_insert. case_decide; [done|]. by eapply Ha.
Qed.

(** X12. [reconcileKey] keeps the pointer discipline of the cache on each of
    its paths: no bundle is stored under two keys, every stored pointer was
    allocated, and, when every stored pointer referred to a bundle before,
    every stored pointer refers to one afterwards (no dangling pointer). It
    never touches the work queue. *)
Theorem reconcileKey_keeps_discipline key w :
  wf w →
  wf (exec (reconcileKey key) w) ∧
  (allocated w → allocated (exec (reconcileKey key) w)) ∧
  queue (exec (reconcileKey key) w) = queue w.
Proof.
  intros Hwf. split; [|split; [|apply reconcileKey_queue]].
  - unfold reconcileKey.
    destruct (SplitMetaNamespaceKey key) as [[namespace name] [e|]]; [done|].
    destruct (endpointsLister m namespace name) as [ep|[msg|msg]];
      cbv beta iota zeta delta [IsNotFound].
    + by apply mapService_spec.
    + rewrite exec_bind.
      assert (wf (exec (log.Tracef
                    "Endpoints has been deleted %v. Attempting to cleanup metadata map") w))
        as Hwf1 by (by apply (wf_same_cache w)).
      unfold mapDeletedService.
      destruct (nodeLister m) as [nodes|err]; [|done].
      by apply mapDeletedService_nodes_spec.
    + rewrite exec_bind. by apply (wf_same_cache w).
  - intros Ha. unfold reconcileKey.
    destruct (SplitMetaNamespaceKey key) as [[namespace name] [e|]]; [done|].
    destruct (endpointsLister m namespace name) as [ep|[msg|msg]];
      cbv beta iota zeta delta [IsNotFound].
    + by apply mapService_allocated.
    + rewrite exec_bind.
      assert (allocated (exec (log.Tracef
                    "Endpoints has been deleted %v. Attempting to cleanup metadata map") w))
        as Ha1 by (by apply (allocated_same_cache w)).
      unfold mapDeletedService.
      destruct (nodeLister m) as [nodes|err]; [|done].
      by apply mapDeletedService_nodes_allocated.
    + rewrite exec_bind. by apply (allocated_same_cache w).
Qed.

(** *** What the cleanup changes *)

(** X10. The cleanup of a deleted service removes its name from the pods of
    the given namespace in the bundles of the nodes listed before the first
    node without a bundle (all listed nodes when each has one), and changes
    no other namespace, no other service name and no other node. *)
Theorem mapDeletedService_cleans_listed_prefix namespace svc nodes w n ns pod :
  nodeLister m = inl nodes →
  wf w →
  cachedServices (exec (mapDeletedService namespace svc) w) n ns pod =
  if decide (n ∈ cleaned w nodes ∧ ns = namespace)
  then cachedServices w n ns pod ∖ {[svc]}
  else cachedServices w n ns pod.
Proof.
  intros Hl Hwf. unfold mapDeletedService. rewrite Hl.
  by apply mapDeletedService_nodes_spec.
Qed.

Lemma mapDeletedService_nodes_store namespace svc nodes w k :
  store (exec (mapDeletedService_nodes namespace svc nodes) w) !! k =
  match store w !! k with
  | Some (PtrBundle l, t) =>
      Some (PtrBundle l,
            if decide (k ∈ BuildAgentKey metadataMapperCachePrefix <$> cleaned w nodes)
            then metadataMapExpire else t)
  | o => o
  end.
Proof.
  revert w. induction nodes as [|node rest IH]; intros w.
  - change (exec (mapDeletedService_nodes namespace svc []) w) with w.
    by destruct (store w !! k) as [[[l|d] t]|].
  - destruct (store w !! BuildAgentKey metadataMapperCachePrefix (node_Name node))
      as [[[l|d] t]|] eqn:E.
    2,3: unfold exec; rewrite mapDeletedService_nodes_missing
           by (intros l0 t1; rewrite E; done);
         cbn [snd cleaned]; unfold has_bundle; rewrite E;
         by destruct (store w !! k) as [[[l'|d'] t']|].
    unfold exec in *. erewrite mapDeletedService_nodes_present by done.
    rewrite IH. erewrite cleaned_insert_existing by done. simpl store.
    simpl cleaned. unfold has_bundle. rewrite E. rewrite fmap_cons.
    destruct (decide (k = BuildAgentKey metadataMapperCachePrefix (node_Name node)))
      as [->|Hne].
    + rewrite lookup_insert_eq, E.
      rewrite (decide_True (P := _ ∈ _ :: _)) by left. by case_decide.
    + rewrite lookup_insert_ne by done.
      destruct (store w !! k) as [[[l'|d'] t']|]; [|done|done].
      do 2 f_equal. apply decide_ext. rewrite elem_of_cons. naive_solver.
Qed.

(** X11. The cleanup creates and removes no cache entry: a key keeps the
    value it holds, and the time to live of the bundles of the visited nodes
    is set to [metadataMapExpire], whether or not they held the service.
    When the node listing fails the error is returned and nothing is done. *)
Theorem mapDeletedService_store_frame namespace svc w :
  (∀ err, nodeLister m = inr err →
     mapDeletedService namespace svc w = (Some err, w)) ∧
  (∀ nodes k, nodeLister m = inl nodes →
     store (exec (mapDeletedService namespace svc) w) !! k =
     match store w !! k with
     | Some (PtrBundle l, t) =>
         Some (PtrBundle l,
               if decide (k ∈ BuildAgentKey metadataMapperCachePrefix <$> cleaned w nodes)
               then metadataMapExpire else t)
     | o => o
     end).
Proof.
  unfold mapDeletedService. split.
  - by intros err ->.
  - intros nodes k ->. apply mapDeletedService_nodes_store.
Qed.

(** *** From the cache to the tags *)

Lemma kube_service_inj : Inj (=) (=) kube_service.
Proof. intros s1 s2 H. by apply (string_app_inj "kube_service:"). Qed.

Lemma GetPodMetadataNames_elem nodeName ns podName w s :
  s ∈ (eval (GetPodMetadataNames nodeName ns podName) w).1 ↔
  ∃ svc, svc ∈ cachedServices w nodeName ns podName ∧ s = kube_service svc.
Proof.
  rewrite GetPodMetadataNames_eval. unfold cachedServices, ServicesMapper.of_pod, lookup2.
  destruct (store w !! BuildAgentKey metadataMapperCachePrefix nodeName)
    as [[[l|d] t]|]; simpl.
  2,3: split; [by intros ?%elem_of_nil | by intros (svc & ?%not_elem_of_empty & _)].
  destruct (Services (deref w l) !! ns ≫= _) as [svcs|]; simpl.
  - rewrite list_elem_of_fmap. setoid_rewrite elem_of_elements. naive_solver.
  - split; [by intros ?%elem_of_nil | by intros (svc & ?%not_elem_of_empty & _)].
Qed.

(** X14. The tags [GetPodMetadataNames] returns are the cached service names
    of the pod, each prefixed with "kube_service:", without duplicates; with
    an error it returns no tag. *)
Theorem GetPodMetadataNames_tags nodeName ns podName w :
  let r := eval (GetPodMetadataNames nodeName ns podName) w in
  (∀ s, s ∈ r.1 ↔
        ∃ svc, svc ∈ cachedServices w nodeName ns podName ∧ s = "kube_service:" ++ svc) ∧
  NoDup r.1 ∧
  length r.1 = size (cachedServices w nodeName ns podName) ∧
  (r.2 ≠ None → r.1 = []).
Proof.
  cbv zeta. split; [intros s; apply GetPodMetadataNames_elem|].
  rewrite GetPodMetadataNames_eval. unfold cachedServices, ServicesMapper.of_pod, lookup2.
  destruct (store w !! BuildAgentKey metadataMapperCachePrefix nodeName)
    as [[[l|d] t]|]; simpl.
  2,3: by repeat split; try apply NoDup_nil_2.
  destruct (Services (deref w l) !! ns ≫= _) as [svcs|]; simpl.
  - split; [|split; [by rewrite length_fmap|done]].
    apply (NoDup_fmap_2 kube_service), NoDup_elements.
  - by repeat split; try apply NoDup_nil_2.
Qed.

(** X13. What [mapService] writes, the read path returns: after the
    reconciliation of an object, a query for the pod the pass retained for
    (node, namespace) succeeds and its tags include the object's name. *)
Theorem mapService_then_GetPodMetadataNames endpoints w n ns pod :
  wf w →
  retained_pod endpoints n ns = Some pod →
  let r := eval (GetPodMetadataNames n ns pod) (exec (mapService endpoints) w) in
  r.2 = None ∧ ("kube_service:" ++ Name endpoints) ∈ r.1.
Proof.
  intros Hwf Hr. cbv zeta.
  assert (Name endpoints ∈ cachedServices (exec (mapService endpoints) w) n ns pod) as Hin.
  { destruct (mapService_spec endpoints w Hwf) as (_ & _ & ->).
    rewrite decide_True by done. set_solver. }
  split.
  - rewrite GetPodMetadataNames_eval. unfold cachedServices in Hin.
    destruct (store _ !! _) as [[[l|d] t]|]; [|by apply not_elem_of_empty in Hin|done].
    by destruct (lookup2 _ ns pod).
  - apply GetPodMetadataNames_elem. by exists (Name endpoints).
Qed.

(** X15. After the cleanup of a deleted service, a query for any pod of its
    namespace on a cleaned node no longer returns the service's tag, and
    returns every other tag it returned before. *)
Theorem mapDeletedService_then_GetPodMetadataNames namespace svc nodes w n pod s :
  nodeLister m = inl nodes →
  wf w →
  n ∈ cleaned w nodes →
  s ∈ (eval (GetPodMetadataNames n namespace pod)
         (exec (mapDeletedService namespace svc) w)).1 ↔
  s ∈ (eval (GetPodMetadataNames n namespace pod) w).1 ∧ s ≠ "kube_service:" ++ svc.
Proof.
  intros Hl Hwf Hn. rewrite !GetPodMetadataNames_elem.
  unfold mapDeletedService. rewrite Hl.
  destruct (mapDeletedService_nodes_spec namespace svc nodes w Hwf) as [_ ->].
  rewrite decide_True by done. split.
  - intros (x & Hx & ->). split; [exists x; set_solver|].
    intros Heq%kube_service_inj. set_solver.
  - intros [(x & Hx & ->) Hne]. exists x. split; [|done].
    apply elem_of_difference. split; [done|].
    intros ->%elem_of_singleton. by apply Hne.
Qed.

(** *** From a notification to the cache *)

Lemma cache_fn_reconcileKey key : cache_fn (reconcileKey key).
Proof.
  unfold reconcileKey.
  destruct (SplitMetaNamespaceKey key) as [[namespace name] [e|]];
    [apply cache_fn_ret|].
  destruct (endpointsLister m namespace name) as [ep|[msg|msg]];
    cbv beta iota zeta delta [IsNotFound].
  - apply cache_fn_mapService.
  - apply cache_fn_bind; [apply cache_fn_emit|]. intros _.
    apply cache_fn_mapDeletedService.
  - apply cache_fn_bind; [apply cache_fn_emit|]. intros _. apply cache_fn_ret.
Qed.

Lemma Add_idempotent key q :
  workqueue.Add key (workqueue.Add key q) = workqueue.Add key q.
Proof.
  unfold workqueue.Add.
  destruct (q_shuttingDown q) eqn:Hs; simpl; [by rewrite Hs|].
  destruct (decide (key ∈ q_dirty q)) as [Hd|Hd]; simpl.
  { rewrite Hs. by rewrite decide_True. }
  destruct (decide (key ∈ q_processing q)); simpl; rewrite ?Hs;
    (rewrite decide_True; [done|set_solver]).
Qed.

(** The queue after a notification whose key is neither queued nor being
    processed, and the worker step that follows. *)
Lemma queued_then_worker w1 w key :
  same_cache w1 w →
  queue w1 = workqueue.Add key (queue w) →
  q_items (queue w) = [] →
  q_shuttingDown (queue w) = false →
  key ∉ q_dirty (queue w) →
  key ∉ q_processing (queue w) →
  let w2 := exec processNextWorkItem w1 in
  eval processNextWorkItem w1 = Some true ∧
  same_cache w2 (exec (reconcileKey key) w) ∧
  q_items (queue w2) = [] ∧ (key ∉ q_dirty (queue w2)) ∧
  (key ∉ q_processing (queue w2)).
Proof.
  intros Hc Hq Hi Hs Hd Hp. cbv zeta.
  assert (q_items (queue w1) = [key]) as Hq1.
  { rewrite Hq. unfold workqueue.Add. rewrite Hs.
    rewrite !decide_False by done. simpl. by rewrite Hi. }
  destruct (processNextWorkItem_run w1 key [] Hq1) as [Hr _].
  destruct (processNextWorkItem_queue_shape w1 key [] Hq1) as (Hi2 & Hd2 & Hp2 & _).
  split; [done|]. split.
  - eapply same_cache_trans; [by apply (processNextWorkItem_cache w1 key [])|].
    by apply cache_fn_reconcileKey.
  - split; [done|]. rewrite Hd2, Hp2. set_solver.
Qed.

Lemma addEndpoints_same_cache endpoints w :
  same_cache (exec (addEndpoints (ObjEndpoints endpoints)) w) w.
Proof.
  unfold addEndpoints, enqueue, MetaNamespaceKeyFunc, exec.
  rewrite !run_bind. by case_decide.
Qed.

Lemma updateEndpoints_same_cache old endpoints w :
  same_cache (exec (updateEndpoints old (ObjEndpoints endpoints)) w) w.
Proof.
  unfold updateEndpoints, enqueue, MetaNamespaceKeyFunc, exec.
  rewrite !run_bind. by case_decide.
Qed.

Lemma deleteEndpoints_same_cache endpoints w :
  same_cache (exec (deleteEndpoints (ObjEndpoints endpoints)) w) w.
Proof.
  unfold deleteEndpoints, enqueue, MetaNamespaceKeyFunc, exec.
  rewrite !run_bind. by case_decide.
Qed.

Lemma reconcileKey_found endpoints w :
  slash_free (Namespace endpoints) = true →
  slash_free (Name endpoints) = true →
  endpointsLister m (Namespace endpoints) (Name endpoints) = inl endpoints →
  reconcileKey (MetaNamespaceKeyFunc (ObjEndpoints endpoints)).1 w
    = mapService endpoints w.
Proof.
  intros Hns Hn Hl. unfold reconcileKey.
  rewrite SplitMetaNamespaceKey_of_key by done. by rewrite Hl.
Qed.

Lemma reconcileKey_not_found endpoints msg w :
  slash_free (Namespace endpoints) = true →
  slash_free (Name endpoints) = true →
  endpointsLister m (Namespace endpoints) (Name endpoints) = inr (StatusNotFound msg) →
  same_cache (exec (reconcileKey (MetaNamespaceKeyFunc (ObjEndpoints endpoints)).1) w)
             (exec (mapDeletedService (Namespace endpoints) (Name endpoints)) w).
Proof.
  intros Hns Hn Hl. unfold reconcileKey.
  rewrite SplitMetaNamespaceKey_of_key by done. rewrite Hl.
  cbv beta iota zeta delta [IsNotFound]. rewrite exec_bind.
  by apply cache_fn_mapDeletedService.
Qed.

(** X1. An add or update notification of an endpoints object reaches the
    cache: when the object's namespace and name hold no slash, its key is
    not already queued or being processed and the lister finds the object,
    the notification followed by one worker step leaves the cache as
    [mapService] on the object does, the step returns true, and the key is
    gone from the queue. *)
Theorem notification_then_worker_maps_service endpoints old w :
  let key := (MetaNamespaceKeyFunc (ObjEndpoints endpoints)).1 in
  slash_free (Namespace endpoints) = true →
  slash_free (Name endpoints) = true →
  endpointsLister m (Namespace endpoints) (Name endpoints) = inl endpoints →
  q_items (queue w) = [] →
  q_shuttingDown (queue w) = false →
  key ∉ q_dirty (queue w) →
  key ∉ q_processing (queue w) →
  ∀ handler,
    handler = addEndpoints (ObjEndpoints endpoints) ∨
    handler = updateEndpoints old (ObjEndpoints endpoints) →
    let w2 := exec (handler ;; processNextWorkItem) w in
    eval (handler ;; processNextWorkItem) w = Some true ∧
    same_cache w2 (exec (mapService endpoints) w) ∧
    q_items (queue w2) = [] ∧ (key ∉ q_dirty (queue w2)) ∧
    (key ∉ q_processing (queue w2)).
Proof.
  intros key Hns Hn Hl Hi Hs Hd Hp handler Hh. cbv zeta.
  rewrite exec_bind, eval_bind.
  assert (same_cache (exec handler w) w ∧
          queue (exec handler w) = workqueue.Add key (queue w)) as [Hc Hq].
  { destruct Hh as [-> | ->].
    - split; [apply addEndpoints_same_cache|apply addEndpoints_enqueued].
    - split; [apply updateEndpoints_same_cache|apply updateEndpoints_enqueued]. }
  destruct (queued_then_worker _ w key Hc Hq Hi Hs Hd Hp) as (Hr & Hc2 & Hrest).
  split; [done|]. split; [|done].
  assert (exec (reconcileKey key) w = exec (mapService endpoints) w) as <-
    by (unfold exec, key; by rewrite reconcileKey_found).
  exact Hc2.
Qed.

(** X16. A delete notification of an endpoints object reaches the cleanup:
    under the same conditions on the key, when the lister no longer finds
    the object, the notification followed by one worker step leaves the
    cache as [mapDeletedService] on the object's namespace and name does. *)
Theorem delete_notification_then_worker_cleans endpoints msg w :
  let key := (MetaNamespaceKeyFunc (ObjEndpoints endpoints)).1 in
  slash_free (Namespace endpoints) = true →
  slash_free (Name endpoints) = true →
  endpointsLister m (Namespace endpoints) (Name endpoints) = inr (StatusNotFound msg) →
  q_items (queue w) = [] →
  q_shuttingDown (queue w) = false →
  key ∉ q_dirty (queue w) →
  key ∉ q_processing (queue w) →
  let w2 := exec (deleteEndpoints (ObjEndpoints endpoints) ;; processNextWorkItem) w in
  eval (deleteEndpoints (ObjEndpoints endpoints) ;; processNextWorkItem) w = Some true ∧
  same_cache w2 (exec (mapDeletedService (Namespace endpoints) (Name endpoints)) w) ∧
  q_items (queue w2) = [] ∧ (key ∉ q_processing (queue w2)).
Proof.
  intros key Hns Hn Hl Hi Hs Hd Hp. cbv zeta.
  rewrite exec_bind, eval_bind.
  destruct (queued_then_worker _ w key (deleteEndpoints_same_cache endpoints w)
              (deleteEndpoints_object_enqueued endpoints w) Hi Hs Hd Hp)
    as (Hr & Hc2 & Hi2 & _ & Hp2).
  split; [done|]. split; [|done].
  eapply same_cache_trans; [exact Hc2|]. by eapply reconcileKey_not_found.
Qed.

(** X17. Notifications of one object coalesce: an add, an update and a
    delete notification of the same endpoints object, delivered before a
    worker takes the key, leave the queue as the first of them alone does. *)
Theorem notifications_coalesce endpoints old w :
  let obj := ObjEndpoints endpoints in
  queue (exec (addEndpoints obj ;; updateEndpoints old obj ;; deleteEndpoints obj) w)
  = queue (exec (addEndpoints obj) w).
Proof.
  cbv zeta. rewrite !exec_bind.
  rewrite deleteEndpoints_object_enqueued.
  rewrite (proj2 (updateEndpoints_enqueued old endpoints _)).
  rewrite (proj2 (addEndpoints_enqueued endpoints w)).
  by rewrite !Add_idempotent.
Qed.

(** X4. A worker step on a queued key changes the cache exactly as the
    reconciliation of that key does, and on every outcome the deferred
    [Done] releases the key: it is no longer marked as being processed, and
    the shutdown flag is as before. *)
Theorem processNextWorkItem_step_frame w key rest :
  q_items (queue w) = key :: rest →
  let w' := exec processNextWorkItem w in
  same_cache w' (exec (reconcileKey key) w) ∧
  (key ∉ q_processing (queue w')) ∧
  q_processing (queue w') = q_processing (queue w) ∖ {[key]} ∧
  q_shuttingDown (queue w') = q_shuttingDown (queue w).
Proof.
  intros Hq. cbv zeta.
  destruct (processNextWorkItem_queue_shape w key rest Hq) as (_ & _ & Hp & Hs).
  split; [by apply (processNextWorkItem_cache w key rest)|].
  rewrite Hp. split; [set_solver|done].
Qed.

(** *** The worker loop *)

Lemma cache_fn_reconcile_keys keys : cache_fn (reconcile_keys keys).
Proof.
  apply cache_fn_forM. intros key.
  apply cache_fn_bind; [apply cache_fn_reconcileKey|]. intros _. apply cache_fn_ret.
Qed.

Lemma exec_reconcile_keys_cons key keys w :
  exec (reconcile_keys (key :: keys)) w
  = exec (reconcile_keys keys) (exec (reconcileKey key) w).
Proof. unfold reconcile_keys. rewrite exec_forM_cons. by rewrite exec_bind. Qed.

(** X2. A call of [worker] needs one step per queued key and one more: it
    hands every queued key to the reconciler, so that the cache ends as
    after [reconcileKey] on each queued key in queue order, leaves no key
    queued or marked as being processed, and then returns when the queue is
    shutting down and waits in [Get] otherwise. *)
Theorem worker_drains_queue w fuel :
  length (q_items (queue w)) < fuel →
  let w' := exec (worker fuel) w in
  eval (worker fuel) w
    = Some (if q_shuttingDown (queue w) then Returned else Blocked) ∧
  same_cache w' (exec (reconcile_keys (q_items (queue w))) w) ∧
  q_items (queue w') = [] ∧
  q_processing (queue w')
    = q_processing (queue w) ∖ list_to_set (q_items (queue w)) ∧
  q_shuttingDown (queue w') = q_shuttingDown (queue w).
Proof.
  revert w. induction fuel as [|fuel IH]; intros w Hlen; [lia|].
  cbv zeta. destruct (q_items (queue w)) as [|key rest] eqn:Hq.
  - assert (worker (S fuel) w
            = (Some (if q_shuttingDown (queue w) then Returned else Blocked), w))
      as Hrun.
    { simpl worker. rewrite run_bind, (processNextWorkItem_empty w Hq).
      cbn [fst snd]. by destruct (q_shuttingDown (queue w)). }
    unfold exec, eval. rewrite Hrun. cbn [fst snd].
    split; [done|]. split; [apply same_cache_refl|]. split; [done|].
    split; [set_solver|done].
  - destruct (processNextWorkItem_run w key rest Hq) as [Hr _].
    destruct (processNextWorkItem_queue_shape w key rest Hq)
      as (Hi & _ & Hp & Hs).
    pose proof (processNextWorkItem_cache w key rest Hq) as Hc.
    assert (worker (S fuel) w = worker fuel (exec processNextWorkItem w)) as Hrun.
    { simpl worker. rewrite run_bind. unfold eval in Hr. by rewrite Hr. }
    assert (exec (worker (S fuel)) w
            = exec (worker fuel) (exec processNextWorkItem w)) as ->
      by (unfold exec at 1 2; by rewrite Hrun).
    assert (eval (worker (S fuel)) w
            = eval (worker fuel) (exec processNextWorkItem w)) as ->
      by (unfold eval at 1 2; by rewrite Hrun).
    specialize (IH (exec processNextWorkItem w)).
    rewrite Hi, Hp, Hs in IH. simpl in Hlen.
    assert (length rest < fuel) as Hlt by lia.
    destruct (IH Hlt) as (He & Hc' & Hi' & Hp' & Hs').
    split; [done|]. split; [|split; [done|]; split; [|done]].
    + rewrite exec_reconcile_keys_cons.
      eapply same_cache_trans; [exact Hc'|].
      by apply cache_fn_reconcile_keys.
    + rewrite Hp'. set_solver.
Qed.

End Controller.

(** ** Concrete runs *)

(** The two cases of [TestMetadataControllerMapServices], run one after the
    other on the shared cache, give the bundles the test expects. *)
Example test_one_service_on_multiple_nodes :
  let w := exec (reconcile_all ex_prefix ex_expire test_one_service) emptyWorld in
  bundle_of ex_prefix w "node1" = Some {["foo" := {["pod1_name" := {["svc1"]}]}]} ∧
  bundle_of ex_prefix w "node2" = Some {["foo" := {["pod2_name" := {["svc1"]}]}]}.
Proof. cbv zeta. split; vm_compute; reflexivity. Qed.

Example test_pod_added_to_existing_service :
  let w := exec (reconcile_all ex_prefix ex_expire (test_one_service ++ test_pod_added))
                emptyWorld in
  bundle_of ex_prefix w "node1" =
    Some {["foo" := {["pod1_name" := {["svc1"]}; "pod2_name" := {["svc1"]}]}]}.
Proof. cbv zeta. vm_compute. reflexivity. Qed.

(** The spec's examples of the read path: svc1 and svc2 front foo/podB on
    node1, an unknown pod has no data, and deleting svc1 leaves svc2. *)
Example read_path_examples :
  let w := exec (reconcile_all ex_prefix ex_expire [ex_svc1_two_pods; ex_svc2])
                emptyWorld in
  let w' := exec (mapDeletedService ex_prefix ex_expire
                    (mkController (inl [mkNode "node1"]) (λ _ _, inr (StatusNotFound "")))
                    "foo" "svc1") w in
  eval (GetPodMetadataNames ex_prefix "node1" "foo" "podB") w
    = (["kube_service:svc1"; "kube_service:svc2"], None) ∧
  eval (GetPodMetadataNames ex_prefix "node2" "foo" "podC") w = ([], None) ∧
  eval (GetPodMetadataNames ex_prefix "node1" "foo" "podB") w'
    = (["kube_service:svc2"], None).
Proof. cbv zeta. repeat apply conj; vm_compute; reflexivity. Qed.

(** C1. The cache holds a bundle for node2 in which svc1 fronts foo/podA and
    no bundle for node1. Cleaning up the deleted svc1 with the nodes listed
    as node1, node2 returns at node1 and leaves svc1 in node2's bundle; with
    the nodes listed as node2, node1 the service is removed. *)
Theorem mapDeletedService_returns_at_first_node_without_bundle :
  let w := exec (mapService ex_prefix ex_expire ex_svc1_on_node2) emptyWorld in
  let w' := exec (mapDeletedService ex_prefix ex_expire ex_deleted "foo" "svc1") w in
  let w'' := exec (mapDeletedService ex_prefix ex_expire ex_deleted_node2_first
                                     "foo" "svc1") w in
  has_bundle ex_prefix w "node1" = false ∧
  cachedServices ex_prefix w "node2" "foo" "podA" = {["svc1"]} ∧
  eval (mapDeletedService ex_prefix ex_expire ex_deleted "foo" "svc1") w = None ∧
  cachedServices ex_prefix w' "node2" "foo" "podA" = {["svc1"]} ∧
  w' = w ∧
  cachedServices ex_prefix w'' "node2" "foo" "podA" = ∅.
Proof. cbv zeta. repeat apply conj; vm_compute; reflexivity. Qed.

(** C2, as stated, fails: svc1 lists foo/podA and foo/podB on node1; after
    its reconciliation on the empty cache the set stored for foo/podA on
    node1 is empty, although svc1 referenced that address. *)
Lemma reconcile_all_drops_overwritten_address :
  let w := exec (reconcile_all ex_prefix ex_expire [ex_svc1_two_pods]) emptyWorld in
  names_referencing [ex_svc1_two_pods] "node1" "foo" "podA" = {["svc1"]} ∧
  cachedServices ex_prefix w "node1" "foo" "podA" = ∅ ∧
  cachedServices ex_prefix w "node1" "foo" "podA" ≠
    names_referencing [ex_svc1_two_pods] "node1" "foo" "podA".
Proof.
  cbv zeta. split; [vm_compute; reflexivity|]. split; [vm_compute; reflexivity|].
  intros H. apply (f_equal elements) in H. vm_compute in H. discriminate H.
Qed.

(** After svc1 (podA then podB on node1) and svc2 (podB on node1), run on the
    empty cache, foo/podB on node1 has the names of both. *)
Lemma reconcile_all_merges_retained_witness :
  store emptyWorld = ∅ ∧
  cachedServices ex_prefix
    (exec (reconcile_all ex_prefix ex_expire [ex_svc1_two_pods; ex_svc2]) emptyWorld)
    "node1" "foo" "podB" =
  names_retaining [ex_svc1_two_pods; ex_svc2] "node1" "foo" "podB".
Proof.
  split; [reflexivity|].
  apply (reconcile_all_merges_retained ex_prefix ex_expire
           [ex_svc1_two_pods; ex_svc2] emptyWorld "node1" "foo" "podB").
  reflexivity.
Defined.

(** The entry of svc2's transient map stems from its one valid address. *)
Lemma mapService_ignores_invalid_addresses_witness :
  lookup2 (build_nodeToPods ex_svc2) "node1" "foo" = Some "podB" ∧
  ∃ a, a ∈ all_addresses ex_svc2 ∧ address_entry a = Some ("node1", "foo", "podB").
Proof.
  assert (lookup2 (build_nodeToPods ex_svc2) "node1" "foo" = Some "podB") as H
    by (vm_compute; reflexivity).
  split; [exact H|].
  exact (proj1 (proj2 (mapService_ignores_invalid_addresses ex_prefix ex_expire ex_svc2))
           "node1" "foo" "podB" H).
Defined.

(** A first failure of default/svc1 counts one requeue. *)
Lemma processNextWorkItem_retry_policy_witness :
  let w := exec (queue_Add "default/svc1") emptyWorld in
  q_items (queue w) = ["default/svc1"] ∧
  q_failures (queue (exec (processNextWorkItem ex_prefix ex_expire ex_lookup_fails) w))
    !! "default/svc1" = Some 1.
Proof.
  cbv zeta.
  assert (q_items (queue (exec (queue_Add "default/svc1") emptyWorld))
          = "default/svc1" :: []) as Hq by reflexivity.
  split; [exact Hq|].
  destruct (processNextWorkItem_retry_policy ex_prefix ex_expire ex_lookup_fails
              _ _ _ Hq) as (_ & _ & _ & _ & _ & _ & _ & _ & Hiff & _).
  apply Hiff; [vm_compute; eauto | vm_compute; lia].
Defined.

(** C3, as stated, fails in two runs of default/svc1, whose lookup always
    fails. (a) The key is queued and the queue then shuts down: the worker
    still gets the key, its count 0 is below the ceiling, the failure is
    counted, but the key is not parked and the end of a backoff brings
    nothing back: it is not re-enqueued. (b) After fourteen failed attempts
    the fifteenth failure parks the key with count 15; an update
    notification during that backoff queues it, the sixteenth failure drops
    it at the ceiling and clears its counter, but the delayed add of the
    fifteenth failure is still pending: when it fires the key is queued and
    attempted a seventeenth time, with its count restarted. *)
Lemma retry_policy_literal_reading_fails :
  let key := "default/svc1" in
  let step := processNextWorkItem ex_prefix ex_expire ex_lookup_fails in
  let failed w :=
    is_Some (eval (reconcileKey ex_prefix ex_expire ex_lookup_fails key)
                  (exec queue_Get w)) in
  let wa := exec (queue_Add key ;; queue_ShutDown) emptyWorld in
  let wa' := exec step wa in
  let w14 := Nat.iter 14 (exec (attempt ex_prefix ex_expire ex_lookup_fails key))
                      (exec (queue_Add key) emptyWorld) in
  let w15 := exec (step ;;
                   updateEndpoints (ObjEndpoints ex_svc1_two_pods)
                                   (ObjEndpoints ex_svc1_on_node2)) w14 in
  let w16 := exec step w15 in
  let w17 := exec (queue_ready key ;; step) w16 in
  (q_items (queue wa) = [key] ∧ workqueue.NumRequeues key (queue wa) = 0 ∧
   failed wa ∧
   workqueue.NumRequeues key (queue wa') = 1 ∧
   q_items (queue wa') = [] ∧ q_waiting (queue wa') = ∅ ∧
   q_items (queue (exec (queue_ready key) wa')) = []) ∧
  (q_items (queue w15) = [key] ∧ workqueue.NumRequeues key (queue w15) = 15 ∧
   failed w15 ∧
   q_failures (queue w16) !! key = None ∧ q_items (queue w16) = [] ∧
   q_waiting (queue w16) = {[key]} ∧
   q_items (queue (exec (queue_ready key) w16)) = [key] ∧
   eval (queue_ready key ;; step) w16 = Some true ∧
   workqueue.NumRequeues key (queue w17) = 1).
Proof.
  cbv zeta. repeat apply conj; vm_compute; eauto.
Qed.

(** The retries of a key whose reconciliation keeps failing: sixteen
    attempts, then the worker finds the queue empty. *)
Lemma failing_key_attempts_witness :
  let w := exec (queue_Add "default/svc1") emptyWorld in
  idle (queue (Nat.iter (S maxRetries)
                 (exec (attempt ex_prefix ex_expire ex_lookup_fails "default/svc1")) w))
       "default/svc1".
Proof.
  cbv zeta.
  refine (proj1 (proj2 (failing_key_attempts ex_prefix ex_expire ex_lookup_fails
                          "default/svc1" _ _ _))).
  - vm_compute. eauto.
  - repeat split; try reflexivity; vm_compute; set_solver.
Defined.

(** C9, as stated, fails: the node listing succeeds and the endpoints lookup
    fails with an error other than not-found; [reconcileKey] returns that
    error. *)
Lemma reconcileKey_lookup_error_is_returned :
  nodeLister ex_lookup_fails = inl [] ∧
  eval (reconcileKey ex_prefix ex_expire ex_lookup_fails "default/svc1") emptyWorld
    = Some (ErrorString "store unavailable").
Proof. split; [reflexivity | vm_compute; reflexivity]. Qed.

(** A query on the empty cache. *)
Lemma GetPodMetadataNames_absent_is_not_an_error_witness :
  store emptyWorld !! BuildAgentKey ex_prefix "node1" = None ∧
  eval (GetPodMetadataNames ex_prefix "node1" "foo" "podA") emptyWorld = ([], None).
Proof.
  assert (store emptyWorld !! BuildAgentKey ex_prefix "node1" = None) as H
    by reflexivity.
  split; [exact H|].
  apply (GetPodMetadataNames_absent_is_not_an_error ex_prefix "node1" "foo" "podA"
           emptyWorld (or_introl H)).
Defined.

(** A query on a cache holding a string under node1's key. *)
Lemma GetPodMetadataNames_invalid_cache_format_witness :
  let w := exec (Cache_Set (BuildAgentKey ex_prefix "node1") (NotABundle "string") 0)
                emptyWorld in
  store w !! BuildAgentKey ex_prefix "node1" = Some (NotABundle "string", 0%Z) ∧
  eval (GetPodMetadataNames ex_prefix "node1" "foo" "podA") w =
    ([], Some (ErrorString ("invalid cache format for the cacheKey: " ++
                            BuildAgentKey ex_prefix "node1"))).
Proof.
  cbv zeta.
  assert (store (exec (Cache_Set (BuildAgentKey ex_prefix "node1")
                                 (NotABundle "string") 0) emptyWorld)
            !! BuildAgentKey ex_prefix "node1" = Some (NotABundle "string", 0%Z)) as H
    by (vm_compute; reflexivity).
  split; [exact H|].
  exact (proj1 (GetPodMetadataNames_invalid_cache_format ex_prefix "node1" "foo" "podA"
                  _ _ _ H)).
Defined.

(** ** Concrete runs of the further properties *)

Lemma wf_emptyWorld : wf emptyWorld.
Proof. split; intros *; simpl; rewrite lookup_empty; discriminate. Qed.

(** One queued key, fuel for two steps. *)
Lemma worker_drains_queue_witness :
  let w := exec (queue_Add "default/svc1") emptyWorld in
  length (q_items (queue w)) < 2 ∧
  eval (worker ex_prefix ex_expire ex_lookup_fails 2) w = Some Blocked.
Proof.
  cbv zeta.
  assert (length (q_items (queue (exec (queue_Add "default/svc1") emptyWorld))) < 2)
    as H by (vm_compute; lia).
  split; [exact H|].
  exact (proj1 (worker_drains_queue ex_prefix ex_expire ex_lookup_fails _ 2 H)).
Defined.

(** A step on the one queued key. *)
Lemma processNextWorkItem_step_frame_witness :
  let w := exec (queue_Add "default/svc1") emptyWorld in
  q_items (queue w) = ["default/svc1"] ∧
  ("default/svc1" ∉
     q_processing (queue (exec (processNextWorkItem ex_prefix ex_expire ex_lookup_fails) w))).
Proof.
  cbv zeta.
  assert (q_items (queue (exec (queue_Add "default/svc1") emptyWorld))
          = "default/svc1" :: []) as H by reflexivity.
  split; [exact H|].
  exact (proj1 (proj2 (processNextWorkItem_step_frame ex_prefix ex_expire
                         ex_lookup_fails _ _ _ H))).
Defined.

Lemma mapService_idempotent_witness :
  wf emptyWorld ∧
  cachedServices ex_prefix
    (exec (mapService ex_prefix ex_expire ex_svc2)
       (exec (mapService ex_prefix ex_expire ex_svc2) emptyWorld)) "node1" "foo" "podB" =
  cachedServices ex_prefix
    (exec (mapService ex_prefix ex_expire ex_svc2) emptyWorld) "node1" "foo" "podB".
Proof.
  split; [exact wf_emptyWorld|].
  exact (mapService_idempotent ex_prefix ex_expire ex_svc2 emptyWorld
           "node1" "foo" "podB" wf_emptyWorld).
Defined.

(** svc1 first lists podA and podB, its next version only what svc2 lists. *)
Lemma mapService_never_removes_witness :
  retained_pod ex_svc1_two_pods "node1" "foo" = Some "podB" ∧
  cachedServices ex_prefix emptyWorld "node1" "foo" "podB" ∪ {["svc1"]} ⊆
  cachedServices ex_prefix
    (exec (reconcile_all ex_prefix ex_expire [ex_svc1_two_pods; ex_svc1_on_node2])
       emptyWorld) "node1" "foo" "podB".
Proof.
  assert (retained_pod ex_svc1_two_pods "node1" "foo" = Some "podB") as H
    by (vm_compute; reflexivity).
  split; [exact H|].
  exact (mapService_never_removes ex_prefix ex_expire ex_svc1_two_pods
           [ex_svc1_on_node2] emptyWorld "node1" "foo" "podB" wf_emptyWorld H).
Defined.

Lemma reconcile_all_order_irrelevant_witness :
  [ex_svc1_two_pods; ex_svc2] ≡ₚ [ex_svc2; ex_svc1_two_pods] ∧
  cachedServices ex_prefix
    (exec (reconcile_all ex_prefix ex_expire [ex_svc1_two_pods; ex_svc2]) emptyWorld)
    "node1" "foo" "podB" =
  cachedServices ex_prefix
    (exec (reconcile_all ex_prefix ex_expire [ex_svc2; ex_svc1_two_pods]) emptyWorld)
    "node1" "foo" "podB".
Proof.
  assert ([ex_svc1_two_pods; ex_svc2] ≡ₚ [ex_svc2; ex_svc1_two_pods]) as H
    by apply perm_swap.
  split; [exact H|].
  exact (reconcile_all_order_irrelevant ex_prefix ex_expire _ _ emptyWorld
           "node1" "foo" "podB" wf_emptyWorld H).
Defined.

Lemma mapService_store_frame_witness :
  on_node ex_svc2 "node1" ∧
  ∃ l, store (exec (mapService ex_prefix ex_expire ex_svc2) emptyWorld)
         !! BuildAgentKey ex_prefix "node1" = Some (PtrBundle l, ex_expire).
Proof.
  assert (on_node ex_svc2 "node1") as H.
  { exists (pod_address "node1" "foo" "podB"), "foo", "podB".
    split; [by left|reflexivity]. }
  split; [exact H|].
  exact (proj1 (mapService_store_frame ex_prefix ex_expire ex_svc2 emptyWorld)
           "node1" H).
Defined.

Lemma mapService_without_valid_address_witness :
  Forall (λ a, address_entry a = None) (all_addresses ex_no_valid_address) ∧
  mapService ex_prefix ex_expire ex_no_valid_address emptyWorld = (None, emptyWorld).
Proof.
  assert (Forall (λ a, address_entry a = None) (all_addresses ex_no_valid_address))
    as H by (repeat constructor).
  split; [exact H|].
  exact (mapService_without_valid_address ex_prefix ex_expire _ emptyWorld H).
Defined.

Lemma reconcileKey_keeps_discipline_witness :
  wf emptyWorld ∧
  wf (exec (reconcileKey ex_prefix ex_expire ex_finds_svc2 "default/svc2") emptyWorld).
Proof.
  split; [exact wf_emptyWorld|].
  exact (proj1 (reconcileKey_keeps_discipline ex_prefix ex_expire ex_finds_svc2
                  "default/svc2" emptyWorld wf_emptyWorld)).
Defined.

(** The cache after svc1 was mapped to node2, and its cleanup with node2
    listed first. *)
Lemma mapDeletedService_cleans_listed_prefix_witness :
  let w := exec (mapService ex_prefix ex_expire ex_svc1_on_node2) emptyWorld in
  nodeLister ex_deleted_node2_first = inl [mkNode "node2"; mkNode "node1"] ∧
  wf w ∧
  cachedServices ex_prefix
    (exec (mapDeletedService ex_prefix ex_expire ex_deleted_node2_first "foo" "svc1") w)
    "node2" "foo" "podA" =
  (if decide ("node2" ∈ cleaned ex_prefix w [mkNode "node2"; mkNode "node1"] ∧ "foo" = "foo")
   then cachedServices ex_prefix w "node2" "foo" "podA" ∖ {["svc1"]}
   else cachedServices ex_prefix w "node2" "foo" "podA").
Proof.
  cbv zeta.
  assert (wf (exec (mapService ex_prefix ex_expire ex_svc1_on_node2) emptyWorld)) as Hwf
    by (apply mapService_spec, wf_emptyWorld).
  split; [reflexivity|]. split; [exact Hwf|].
  exact (mapDeletedService_cleans_listed_prefix ex_prefix ex_expire
           ex_deleted_node2_first "foo" "svc1" _ _ "node2" "foo" "podA" eq_refl Hwf).
Defined.

Lemma mapDeletedService_store_frame_witness :
  nodeLister ex_deleted = inl [mkNode "node1"; mkNode "node2"] ∧
  store (exec (mapDeletedService ex_prefix ex_expire ex_deleted "foo" "svc1") emptyWorld)
    !! BuildAgentKey ex_prefix "node1" = None.
Proof.
  split; [reflexivity|].
  exact (proj2 (mapDeletedService_store_frame ex_prefix ex_expire ex_deleted
                  "foo" "svc1" emptyWorld) _ (BuildAgentKey ex_prefix "node1") eq_refl).
Defined.

Lemma mapService_then_GetPodMetadataNames_witness :
  wf emptyWorld ∧
  retained_pod ex_svc2 "node1" "foo" = Some "podB" ∧
  "kube_service:svc2" ∈
    (eval (GetPodMetadataNames ex_prefix "node1" "foo" "podB")
       (exec (mapService ex_prefix ex_expire ex_svc2) emptyWorld)).1.
Proof.
  assert (retained_pod ex_svc2 "node1" "foo" = Some "podB") as H
    by (vm_compute; reflexivity).
  split; [exact wf_emptyWorld|]. split; [exact H|].
  exact (proj2 (mapService_then_GetPodMetadataNames ex_prefix ex_expire ex_svc2
                  emptyWorld "node1" "foo" "podB" wf_emptyWorld H)).
Defined.

Lemma mapDeletedService_then_GetPodMetadataNames_witness :
  let w := exec (mapService ex_prefix ex_expire ex_svc1_on_node2) emptyWorld in
  wf w ∧
  "node2" ∈ cleaned ex_prefix w [mkNode "node2"; mkNode "node1"] ∧
  ("kube_service:svc1" ∉
     (eval (GetPodMetadataNames ex_prefix "node2" "foo" "podA")
        (exec (mapDeletedService ex_prefix ex_expire ex_deleted_node2_first "foo" "svc1")
           w)).1).
Proof.
  cbv zeta.
  assert (wf (exec (mapService ex_prefix ex_expire ex_svc1_on_node2) emptyWorld)) as Hwf
    by (apply mapService_spec, wf_emptyWorld).
  assert ("node2" ∈ cleaned ex_prefix
            (exec (mapService ex_prefix ex_expire ex_svc1_on_node2) emptyWorld)
            [mkNode "node2"; mkNode "node1"]) as Hin
    by (vm_compute; left).
  split; [exact Hwf|]. split; [exact Hin|].
  intros Hs.
  apply (mapDeletedService_then_GetPodMetadataNames ex_prefix ex_expire
           ex_deleted_node2_first "foo" "svc1" _ _ "node2" "podA" _ eq_refl Hwf Hin) in Hs.
  by destruct Hs as [_ Hne].
Defined.

(** An add notification of svc2 on an idle controller whose lister finds it. *)
Lemma notification_then_worker_maps_service_witness :
  slash_free (Namespace ex_svc2) = true ∧
  slash_free (Name ex_svc2) = true ∧
  eval (addEndpoints (ObjEndpoints ex_svc2) ;;
        processNextWorkItem ex_prefix ex_expire ex_finds_svc2) emptyWorld = Some true.
Proof.
  split; [reflexivity|]. split; [reflexivity|].
  refine (proj1 (notification_then_worker_maps_service ex_prefix ex_expire ex_finds_svc2
                   ex_svc2 (ObjOther "") emptyWorld eq_refl eq_refl eq_refl eq_refl eq_refl
                   _ _ _ (or_introl eq_refl))); apply not_elem_of_empty.
Defined.

(** A delete notification of svc2 on an idle controller whose lister no
    longer finds it. *)
Lemma delete_notification_then_worker_cleans_witness :
  slash_free (Namespace ex_svc2) = true ∧
  slash_free (Name ex_svc2) = true ∧
  eval (deleteEndpoints (ObjEndpoints ex_svc2) ;;
        processNextWorkItem ex_prefix ex_expire ex_deleted) emptyWorld = Some true.
Proof.
  split; [reflexivity|]. split; [reflexivity|].
  refine (proj1 (delete_notification_then_worker_cleans ex_prefix ex_expire ex_deleted
                   ex_svc2 _ emptyWorld eq_refl eq_refl eq_refl eq_refl eq_refl
                   _ _)); apply not_elem_of_empty.
Defined.
